(** * pyhp/opcodes.py: the instruction set of the pyhp bytecode interpreter

    A shallow embedding of [pyhp/opcodes.py].  Every opcode class becomes a
    constructor of [Opcode]; every [eval] (and [do_jump]) method becomes a
    computation in the monad [M], which threads the interpreter state and
    carries Python exceptions as faults.  Exceptions do not roll back the
    mutations made before they were raised, so a faulting computation still
    returns the state it reached.

    The modules [pyhp.frame], [pyhp.datatypes], [pyhp.utils] and the
    interpreter loop are collaborators of [opcodes.py]; they are modelled
    from the contracts the specification gives for them, and every such
    definition says so. *)

From Stdlib Require Import ZArith Floats Ascii String.
From stdpp Require Import base tactics option list gmap strings pretty.

Set Default Proof Using "Type".
Local Set Warnings "-register-all".
Local Open Scope string_scope.
Local Open Scope list_scope.

(** ** Instructions *)

(** An embedded reference of a string literal: the text to search for, the
    name of the base variable, and the index keys applied to it
    ([search, identifier, indexes = variable] in [LOAD_STRINGVAL.eval]). *)
Definition StringVariable : Type := string * string * list string.

(** One constructor per upper-case class of [opcodes.py] (the classes the
    module collects in [OpcodeMap]).  The fields are the ones listed in
    [_immutable_fields_].  Where a constructor of the class wraps its literal
    in a value object ([W_IntObject(value)], ...) the opcode keeps the literal
    and [eval] wraps it: the wrapped objects are immutable. *)
Inductive Opcode : Type :=
| LOAD_CONSTANT
| LOAD_VAR (index : Z) (name : string)
| LOAD_FUNCTION (function : list Opcode)
| LOAD_LIST (number : nat)
| LOAD_NULL
| LOAD_BOOLEAN (value : bool)
| LOAD_INTVAL (value : Z)
| LOAD_FLOATVAL (value : float)
| LOAD_STRINGVAL (value : string) (variables : list StringVariable)
| LOAD_ARRAY (number : nat)
| LOAD_MEMBER
| STORE_MEMBER
| ASSIGN (index : Z) (name : string)
| DISCARD_TOP
| DUP
| JUMP_IF_FALSE (where_ : nat)
| JUMP (where_ : nat)
| RETURN
| PRINT
| CALL
| EQ | GT | GE | LT | LE | AND | OR
| ADD | SUB | MUL | DIV
| NOT | INCR | DECR
| MOD.

(** [Opcode.get_name]: the name of the class. *)
Definition get_name (op : Opcode) : string :=
  match op with
  | LOAD_CONSTANT => "LOAD_CONSTANT" | LOAD_VAR _ _ => "LOAD_VAR"
  | LOAD_FUNCTION _ => "LOAD_FUNCTION" | LOAD_LIST _ => "LOAD_LIST"
  | LOAD_NULL => "LOAD_NULL" | LOAD_BOOLEAN _ => "LOAD_BOOLEAN"
  | LOAD_INTVAL _ => "LOAD_INTVAL" | LOAD_FLOATVAL _ => "LOAD_FLOATVAL"
  | LOAD_STRINGVAL _ _ => "LOAD_STRINGVAL" | LOAD_ARRAY _ => "LOAD_ARRAY"
  | LOAD_MEMBER => "LOAD_MEMBER" | STORE_MEMBER => "STORE_MEMBER"
  | ASSIGN _ _ => "ASSIGN" | DISCARD_TOP => "DISCARD_TOP" | DUP => "DUP"
  | JUMP_IF_FALSE _ => "JUMP_IF_FALSE" | JUMP _ => "JUMP"
  | RETURN => "RETURN" | PRINT => "PRINT" | CALL => "CALL"
  | EQ => "EQ" | GT => "GT" | GE => "GE" | LT => "LT" | LE => "LE"
  | AND => "AND" | OR => "OR"
  | ADD => "ADD" | SUB => "SUB" | MUL => "MUL" | DIV => "DIV"
  | NOT => "NOT" | INCR => "INCR" | DECR => "DECR" | MOD => "MOD"
  end.

(** ** Values, frames and the interpreter state *)

(** Modelled from the spec: the value variants of [pyhp/datatypes.py], which
    is not under src/ (spec section 3: Null, Boolean, Integer, Float, String,
    Array, List, Function, CodeFunction).  An array is a mutable Python
    object, so a [W_Array] value is a reference into the store [heap]; two
    occurrences of the same reference are aliases of one array. *)
Inductive Value : Type :=
| W_Null
| W_Boolean (boolval : bool)
| W_IntObject (intval : Z)
| W_FloatObject (floatval : float)
| W_StringObject (stringval : string)
| W_Array (ref : nat)
| W_List (values : list Value)
| W_Function (name : string)
| W_CodeFunction (function : list Opcode).

(** Modelled from the spec: the contents of an array, "an ordered
    string-keyed map": the keys in insertion order, each key once. *)
Abbreviation ArrayData := (list (string * Value)).

(** The store of array objects, addressed by reference; a new array takes the
    next free address. *)
Abbreviation Heap := (list ArrayData).

(** Modelled from the spec: the execution frame of [pyhp/frame.py], which is
    not under src/ (spec section 3): the operand stack, top of stack first,
    and the variable environment.  A binding is addressed by a (slot, name)
    pair of which "both must resolve to the same binding"; the model keys the
    binding by the name. *)
Record Frame : Type := mkFrame {
  valuestack : list Value;
  vars : gmap string Value
}.

(** The state an instruction runs in: its frame, the array store and the
    text written so far to the output sink of [PRINT]. *)
Record World : Type := mkWorld {
  frame : Frame;
  heap : Heap;
  output : list string
}.

(** [frame.valuestack_pos]: the current depth of the operand stack. *)
Definition valuestack_pos (w : World) : nat := length (valuestack (frame w)).

(** The faults of spec section 7, and the Python exceptions the code raises
    besides them. *)
Inductive Fault : Type :=
| UnboundVariable (index : Z) (name : string)
| StackUnderflow
| UndefinedKey (key : string)
| TypeMismatch
| DivisionByZero
| NotImplementedOpcode (name : string)
| AssertionError
| AttributeError
| IndexError.

(** ** The state-and-fault monad *)

Definition M (A : Type) : Type := World -> (Fault + A) * World.

Definition ret {A} (a : A) : M A := fun w => (inr a, w).

Definition raise {A} (e : Fault) : M A := fun w => (inl e, w).

Definition bind {A B} (m : M A) (k : A -> M B) : M B :=
  fun w => match m w with
           | (inr a, w') => k a w'
           | (inl e, w') => (inl e, w')
           end.

Notation "'let!' x ':=' m 'in' k" := (bind m (fun x => k))
  (at level 10, x name, m at level 100, k at level 200, only parsing).

(** Lifting a result of a pure collaborator function. *)
Definition lift {A} (r : Fault + A) : M A :=
  fun w => (r, w).

(** The state a computation leaves, whether it faulted or not. *)
Definition state_after {A} (m : M A) (w : World) : World := snd (m w).

(** ** The frame interface *)

Definition with_stack (s : list Value) (w : World) : World :=
  mkWorld (mkFrame s (vars (frame w))) (heap w) (output w).

Definition with_vars (vs : gmap string Value) (w : World) : World :=
  mkWorld (mkFrame (valuestack (frame w)) vs) (heap w) (output w).

Definition with_heap (h : Heap) (w : World) : World :=
  mkWorld (frame w) h (output w).

(** Modelled from the spec: [frame.push(v)] (pyhp/frame.py is not under src/;
    spec section 6: [push(Value)]). *)
Definition push (v : Value) : M unit :=
  fun w => (inr tt, with_stack (v :: valuestack (frame w)) w).

(** Modelled from the spec: [frame.pop()] (spec section 6: [pop() -> Value],
    "fails if empty"; section 7 names the fault StackUnderflow). *)
Definition pop : M Value :=
  fun w => match valuestack (frame w) with
           | v :: s => (inr v, with_stack s w)
           | [] => (inl StackUnderflow, w)
           end.

(** Modelled from the spec: [frame.top()] (spec section 6: "peek, no
    removal"). *)
Definition top : M Value :=
  fun w => match valuestack (frame w) with
           | v :: _ => (inr v, w)
           | [] => (inl StackUnderflow, w)
           end.

(** Modelled from the spec: [frame.pop_n(n)] (spec section 6:
    [pop_n(count) -> Value[]] "in original order"): [n] pops, the value
    popped last placed first. *)
Fixpoint pop_n (n : nat) : M (list Value) :=
  match n with
  | O => ret []
  | S k => let! e := pop in let! r := pop_n k in ret (r ++ [e])
  end.

(** Modelled from the spec: [frame.get_var(name, index)] (spec section 6:
    [get_var(name, slot) -> Value|absent]); [None] is Python's [None]. *)
Definition get_var (name : string) (index : option Z) : M (option Value) :=
  fun w => (inr (vars (frame w) !! name), w).

(** Modelled from the spec: [frame.set_var(index, name, value)] (spec
    section 6; section 4.1: "create-or-overwrite"). *)
Definition set_var (index : Z) (name : string) (value : Value) : M unit :=
  fun w => (inr tt, with_vars (<[name := value]> (vars (frame w))) w).

(** Reading [frame.valuestack_pos]. *)
Definition get_valuestack_pos : M nat :=
  fun w => (inr (valuestack_pos w), w).

Definition get_heap : M Heap := fun w => (inr (heap w), w).

(** ** The value model *)

(** Modelled from the spec: the store behind [W_Array.put] and [W_Array.get]
    (pyhp/datatypes.py is not under src/): [put] overwrites the value of a
    key that is present and keeps its position, and appends a new key. *)
Fixpoint array_put (key : string) (value : Value) (a : ArrayData) : ArrayData :=
  match a with
  | [] => [(key, value)]
  | (k, v) :: a' =>
      if String.eqb k key then (k, value) :: a'
      else (k, v) :: array_put key value a'
  end.

Fixpoint array_get (key : string) (a : ArrayData) : option Value :=
  match a with
  | [] => None
  | (k, v) :: a' => if String.eqb k key then Some v else array_get key a'
  end.

(** Modelled from the spec: [W_Array()], a new, empty array object. *)
Definition new_array : M Value :=
  fun w => (inr (W_Array (length (heap w))), with_heap (heap w ++ [[]]) w).

(** Modelled from the spec: [container.put(key, value)] (spec section 6:
    "in-place mutation of container"), defined for the indexable values, the
    arrays; the array object is updated in the store, so every alias of the
    reference sees the new contents. *)
Definition put (container : Value) (key : string) (value : Value) : M unit :=
  fun w => match container with
           | W_Array r =>
               match heap w !! r with
               | Some a => (inr tt, with_heap (<[r := array_put key value a]> (heap w)) w)
               | None => (inl TypeMismatch, w)
               end
           | _ => (inl TypeMismatch, w)
           end.

(** Modelled from the spec: [container.get(key)] (spec section 6:
    [get(key: string) -> Value], "fails with UndefinedKey"). *)
Definition get (container : Value) (key : string) : M Value :=
  fun w => match container with
           | W_Array r =>
               match heap w !! r with
               | Some a =>
                   match array_get key a with
                   | Some v => (inr v, w)
                   | None => (inl (UndefinedKey key), w)
                   end
               | None => (inl TypeMismatch, w)
               end
           | _ => (inl TypeMismatch, w)
           end.

(** A method call on the result of [get_var]: on Python's [None] it raises
    [AttributeError]. *)
Definition receiver (o : option Value) : M Value :=
  match o with
  | Some v => ret v
  | None => raise AttributeError
  end.

(** Modelled from the spec: [printf] of pyhp/utils.py (not under src/), the
    output sink of [PRINT]. *)
Definition printf (s : string) : M unit :=
  fun w => (inr tt, mkWorld (frame w) (heap w) (output w ++ [s])).

(** The functions [opcodes.py] imports from [pyhp.datatypes] and the methods
    of the value objects whose coercion tables the specification leaves to
    the value model.  They are "pure functions" (spec section 2): they read
    the array store and return a result or a fault.  [call] runs the callee:
    it receives the arguments and the caller's state as calling context and
    returns the callee's result ([call(args, caller_frame) -> Value]), the
    array store and the output it leaves. *)
Record Datatypes : Type := {
  is_true : Heap -> Value -> bool;
  str : Heap -> Value -> string;
  replace : string -> string -> string -> string;
  compare_eq : Heap -> Value -> Value -> Fault + bool;
  compare_gt : Heap -> Value -> Value -> Fault + bool;
  compare_ge : Heap -> Value -> Value -> Fault + bool;
  compare_lt : Heap -> Value -> Value -> Fault + bool;
  compare_le : Heap -> Value -> Value -> Fault + bool;
  plus : Heap -> Value -> Value -> Fault + Value;
  sub : Heap -> Value -> Value -> Fault + Value;
  mult : Heap -> Value -> Value -> Fault + Value;
  division : Heap -> Value -> Value -> Fault + Value;
  increment : Heap -> Value -> Fault + Value;
  decrement : Heap -> Value -> Fault + Value;
  call : Value -> list Value -> World -> (Fault + Value) * Heap * list string
}.

(** ** The opcodes *)

Section Opcodes.

Variable D : Datatypes.

(** [LOAD_VAR.eval] *)
Definition LOAD_VAR_eval (index : Z) (name : string) : M unit :=
  let! variable := get_var name (Some index) in
  match variable with
  | None => raise (UnboundVariable index name)
  | Some v => push v
  end.

(** [LOAD_FUNCTION.eval] *)
Definition LOAD_FUNCTION_eval (function : list Opcode) : M unit :=
  push (W_CodeFunction function).

(** [LOAD_LIST.eval] *)
Definition LOAD_LIST_eval (number : nat) : M unit :=
  let! list_w := pop_n number in
  push (W_List list_w).

(** [LOAD_NULL.eval] *)
Definition LOAD_NULL_eval : M unit := push W_Null.

(** [LOAD_BOOLEAN.eval] *)
Definition LOAD_BOOLEAN_eval (value : bool) : M unit := push (W_Boolean value).

(** [LOAD_INTVAL.eval] *)
Definition LOAD_INTVAL_eval (value : Z) : M unit := push (W_IntObject value).

(** [LOAD_FLOATVAL.eval] *)
Definition LOAD_FLOATVAL_eval (value : float) : M unit :=
  push (W_FloatObject value).

(** The test [key[0] == '$'] of [LOAD_STRINGVAL.eval]; indexing the empty
    string raises [IndexError]. *)
Definition first_is_sigil (key : string) : M bool :=
  match key with
  | EmptyString => raise IndexError
  | String c _ => ret (Ascii.eqb c "$"%char)
  end.

(** The inner loop of [LOAD_STRINGVAL.eval], [for key in indexes]: the local
    [value] starts as the result of [get_var] and is replaced at each key. *)
Fixpoint navigate (indexes : list string) (value : option Value) : M (option Value) :=
  match indexes with
  | [] => ret value
  | key :: indexes' =>
      let! sigil := first_is_sigil key in
      let! key := (if sigil : bool then
                     let! o := get_var key None in
                     let! v := receiver o in
                     let! h := get_heap in
                     ret (str D h v)
                   else ret key) in
      let! container := receiver value in
      let! value := get container key in
      navigate indexes' (Some value)
  end.

(** The outer loop of [LOAD_STRINGVAL.eval],
    [for variable in stringval.get_variables()], over the references in the
    order [get_variables] returns them; the local [stringval] is replaced at
    each reference. *)
Fixpoint interpolate (variables : list StringVariable) (stringval : string) : M string :=
  match variables with
  | [] => ret stringval
  | (search, identifier, indexes) :: variables' =>
      let! value := get_var identifier None in
      let! value := navigate indexes value in
      let! v := receiver value in
      let! h := get_heap in
      let replace_ := str D h v in
      interpolate variables' (replace D stringval search replace_)
  end.

(** [LOAD_STRINGVAL.eval] *)
Definition LOAD_STRINGVAL_eval (value : string) (variables : list StringVariable) : M unit :=
  let! stringval := interpolate variables value in
  push (W_StringObject stringval).

(** The loop of [LOAD_ARRAY.eval],
    [for index, el in enumerate(list_w): array.put(str(index), el)];
    [pretty] writes a number in decimal, as Python's [str] does. *)
Fixpoint put_enumerated (array : Value) (index : nat) (list_w : list Value) : M unit :=
  match list_w with
  | [] => ret tt
  | el :: list_w' =>
      let! _ := put array (pretty index) el in
      put_enumerated array (S index) list_w'
  end.

(** [LOAD_ARRAY.eval] *)
Definition LOAD_ARRAY_eval (number : nat) : M unit :=
  let! array := new_array in
  let! list_w := pop_n number in
  let! _ := put_enumerated array 0 list_w in
  push array.

(** [LOAD_MEMBER.eval] *)
Definition LOAD_MEMBER_eval : M unit :=
  let! array := pop in
  let! m := pop in
  let! h := get_heap in
  let member := str D h m in
  let! value := get array member in
  push value.

(** [STORE_MEMBER.eval] *)
Definition STORE_MEMBER_eval : M unit :=
  let! array := pop in
  let! i := pop in
  let! h := get_heap in
  let index := str D h i in
  let! value := pop in
  put array index value.

(** [ASSIGN.eval] *)
Definition ASSIGN_eval (index : Z) (name : string) : M unit :=
  let! v := pop in
  set_var index name v.

(** [DISCARD_TOP.eval] *)
Definition DISCARD_TOP_eval : M unit :=
  let! _ := pop in ret tt.

(** [DUP.eval] *)
Definition DUP_eval : M unit :=
  let! v := top in push v.

(** [BaseJump.eval] *)
Definition BaseJump_eval : M unit := ret tt.

(** [JUMP_IF_FALSE.do_jump] *)
Definition JUMP_IF_FALSE_do_jump (where_ : nat) (pos : nat) : M nat :=
  let! value := pop in
  let! h := get_heap in
  if negb (is_true D h value) then ret where_
  else ret (pos + 1).

(** [JUMP.do_jump] *)
Definition JUMP_do_jump (where_ : nat) (pos : nat) : M nat := ret where_.

(** [RETURN.eval] *)
Definition RETURN_eval : M Value :=
  let! depth := get_valuestack_pos in
  if (0 <? depth)%nat then pop
  else ret W_Null.

(** [PRINT.eval] *)
Definition PRINT_eval : M unit :=
  let! item := pop in
  let! h := get_heap in
  printf (str D h item).

(** [isinstance(method, W_Function)]; [W_CodeFunction] is a function
    value. *)
Definition is_W_Function (v : Value) : bool :=
  match v with
  | W_Function _ | W_CodeFunction _ => true
  | _ => false
  end.

(** [method.call(params.to_list(), frame)]: the callee returns its result and
    leaves the array store and the output as it changed them; the frame of
    the caller is its calling context. *)
Definition do_call (method : Value) (params : list Value) : M Value :=
  fun w => let '(res, h, out) := call D method params w in
           (res, mkWorld (frame w) h out).

(** [CALL.eval] *)
Definition CALL_eval : M unit :=
  let! method := pop in
  let! params := pop in
  if is_W_Function method then
    match params with
    | W_List values =>
        let! res := do_call method values in
        push res
    | _ => raise AssertionError
    end
  else raise AssertionError.

(** The [decision] method of the subclasses of [BaseDecision]; the only
    constructors that reach [BaseDecision.eval] are these seven. *)
Definition decision (op : Opcode) (left right : Value) : M bool :=
  let! h := get_heap in
  match op with
  | EQ => lift (compare_eq D h left right)
  | GT => lift (compare_gt D h left right)
  | GE => lift (compare_ge D h left right)
  | LT => lift (compare_lt D h left right)
  | LE => lift (compare_le D h left right)
  | AND => ret (is_true D h left && is_true D h right)
  | OR => ret (is_true D h left || is_true D h right)
  | _ => raise (NotImplementedOpcode (get_name op))
  end.

(** [BaseDecision.eval] *)
Definition BaseDecision_eval (op : Opcode) : M unit :=
  let! right := pop in
  let! left := pop in
  let! res := decision op left right in
  push (W_Boolean res).

(** [ADD.eval], [SUB.eval], [MUL.eval] and [DIV.eval], which differ in the
    function of [pyhp.datatypes] they apply. *)
Definition binary_eval (f : Heap -> Value -> Value -> Fault + Value) : M unit :=
  let! right := pop in
  let! left := pop in
  let! h := get_heap in
  let! res := lift (f h left right) in
  push res.

Definition ADD_eval : M unit := binary_eval (plus D).
Definition SUB_eval : M unit := binary_eval (sub D).
Definition MUL_eval : M unit := binary_eval (mult D).
Definition DIV_eval : M unit := binary_eval (division D).

(** [NOT.eval] *)
Definition NOT_eval : M unit :=
  let! val := pop in
  let! h := get_heap in
  let boolval := is_true D h val in
  push (W_Boolean (negb boolval)).

(** [INCR.eval] and [DECR.eval] *)
Definition unary_eval (f : Heap -> Value -> Fault + Value) : M unit :=
  let! left := pop in
  let! h := get_heap in
  let! res := lift (f h left) in
  push res.

Definition INCR_eval : M unit := unary_eval (increment D).
Definition DECR_eval : M unit := unary_eval (decrement D).

(** [Opcode.eval], inherited by the classes that do not override it. *)
Definition Opcode_eval (op : Opcode) : M unit :=
  raise (NotImplementedOpcode (get_name op +:+ ".eval")).

(** A method that ends without a [return] statement returns [None]. *)
Definition returns_None (m : M unit) : M (option Value) :=
  let! _ := m in ret None.

(** The virtual call [opcode.eval(frame)]. *)
Definition eval (op : Opcode) : M (option Value) :=
  match op with
  | LOAD_CONSTANT | MOD => returns_None (Opcode_eval op)
  | LOAD_VAR index name => returns_None (LOAD_VAR_eval index name)
  | LOAD_FUNCTION function => returns_None (LOAD_FUNCTION_eval function)
  | LOAD_LIST number => returns_None (LOAD_LIST_eval number)
  | LOAD_NULL => returns_None LOAD_NULL_eval
  | LOAD_BOOLEAN value => returns_None (LOAD_BOOLEAN_eval value)
  | LOAD_INTVAL value => returns_None (LOAD_INTVAL_eval value)
  | LOAD_FLOATVAL value => returns_None (LOAD_FLOATVAL_eval value)
  | LOAD_STRINGVAL value variables =>
      returns_None (LOAD_STRINGVAL_eval value variables)
  | LOAD_ARRAY number => returns_None (LOAD_ARRAY_eval number)
  | LOAD_MEMBER => returns_None LOAD_MEMBER_eval
  | STORE_MEMBER => returns_None STORE_MEMBER_eval
  | ASSIGN index name => returns_None (ASSIGN_eval index name)
  | DISCARD_TOP => returns_None DISCARD_TOP_eval
  | DUP => returns_None DUP_eval
  | JUMP_IF_FALSE _ | JUMP _ => returns_None BaseJump_eval
  | RETURN => let! v := RETURN_eval in ret (Some v)
  | PRINT => returns_None PRINT_eval
  | CALL => returns_None CALL_eval
  | EQ | GT | GE | LT | LE | AND | OR => returns_None (BaseDecision_eval op)
  | ADD => returns_None ADD_eval
  | SUB => returns_None SUB_eval
  | MUL => returns_None MUL_eval
  | DIV => returns_None DIV_eval
  | NOT => returns_None NOT_eval
  | INCR => returns_None INCR_eval
  | DECR => returns_None DECR_eval
  end.

(** The virtual call [opcode.do_jump(frame, pos)], defined by the two
    subclasses of [BaseJump]. *)
Definition do_jump (op : Opcode) (pos : nat) : option (M nat) :=
  match op with
  | JUMP_IF_FALSE where_ => Some (JUMP_IF_FALSE_do_jump where_ pos)
  | JUMP where_ => Some (JUMP_do_jump where_ pos)
  | _ => None
  end.

(** ** The dispatch loop *)

(** Modelled from the spec: one transition of the dispatch loop, which is
    not under src/ (spec section 4.2, rules 2 to 4): a control-transfer opcode
    computes the next program counter by its jump rule, RETURN ends the loop
    with the value it yields, any other opcode is executed and the counter
    advances by one.  [inl v] is the terminal state "returned with value
    [v]", [inr pc] the next program counter. *)
Definition step (op : Opcode) (pc : nat) : M (Value + nat) :=
  match do_jump op pc with
  | Some jump =>
      let! _ := eval op in
      let! pc' := jump in
      ret (inr pc')
  | None =>
      let! r := eval op in
      match op, r with
      | RETURN, Some v => ret (inl v)
      | _, _ => ret (inr (pc + 1))
      end
  end.

(** Modelled from the spec: the dispatch loop (spec section 4.2, rules 1 and
    5): fetch the instruction at [pc], make its transition, and end with Null
    when [pc] leaves the program.  A program may loop for ever; [fuel] bounds
    the number of instructions fetched, and [None] says the bound was
    reached. *)
Fixpoint execute (fuel : nat) (program : list Opcode) (pc : nat) : M (option Value) :=
  match fuel with
  | O => ret None
  | S fuel' =>
      match program !! pc with
      | None => ret (Some W_Null)
      | Some op =>
          let! r := step op pc in
          match r with
          | inl v => ret (Some v)
          | inr pc' => execute fuel' program pc'
          end
      end
  end.

End Opcodes.

(** ** An instance of the value model *)

(** The theorems below hold for every [Datatypes]; to run the opcodes on
    concrete frames they are instantiated with this small value model:
    PHP's truth values and display strings on the scalar values, integer
    arithmetic, and Python's [str.replace]. *)
Module Sample.

Definition is_true (h : Heap) (v : Value) : bool :=
  match v with
  | W_Null => false
  | W_Boolean b => b
  | W_IntObject n => negb (n =? 0)%Z
  | W_FloatObject f => negb (PrimFloat.eqb f 0%float)
  | W_StringObject s => negb (String.eqb s EmptyString || String.eqb s "0")
  | W_Array r => match h !! r with Some (_ :: _) => true | _ => false end
  | W_List _ | W_Function _ | W_CodeFunction _ => true
  end.

Definition str (h : Heap) (v : Value) : string :=
  match v with
  | W_Null => EmptyString
  | W_Boolean b => if b then "1" else EmptyString
  | W_IntObject n => pretty n
  | W_FloatObject _ => "Float"
  | W_StringObject s => s
  | W_Array _ => "Array"
  | W_List _ => "List"
  | W_Function name => name
  | W_CodeFunction _ => "Function"
  end.

(** [text.replace(search, rep)] of Python: the occurrences of [search] are
    found from left to right and do not overlap; [skip] counts the
    characters of an occurrence still to be passed over. *)
Fixpoint replace_from (search rep : string) (skip : nat) (text : string) : string :=
  match text with
  | EmptyString =>
      match skip, search with
      | O, EmptyString => rep
      | _, _ => EmptyString
      end
  | String c text' =>
      match skip with
      | S k => replace_from search rep k text'
      | O =>
          if String.prefix search text then
            match String.length search with
            | O => rep +:+ String c (replace_from search rep 0 text')
            | S k => rep +:+ replace_from search rep k text'
            end
          else String c (replace_from search rep 0 text')
      end
  end.

Definition replace (text search rep : string) : string :=
  replace_from search rep 0 text.

Definition compare (test : Z -> Z -> bool) (h : Heap) (left right : Value) : Fault + bool :=
  match left, right with
  | W_IntObject a, W_IntObject b => inr (test a b)
  | _, _ => inl TypeMismatch
  end.

Definition arith (f : Z -> Z -> Z) (h : Heap) (left right : Value) : Fault + Value :=
  match left, right with
  | W_IntObject a, W_IntObject b => inr (W_IntObject (f a b))
  | _, _ => inl TypeMismatch
  end.

Definition division (h : Heap) (left right : Value) : Fault + Value :=
  match right with
  | W_IntObject 0 => inl DivisionByZero
  | _ => arith Z.div h left right
  end.

Definition unary (f : Z -> Z) (h : Heap) (left : Value) : Fault + Value :=
  match left with
  | W_IntObject a => inr (W_IntObject (f a))
  | _ => inl TypeMismatch
  end.

(** A callee that returns its first argument, or Null without one. *)
Definition call (method : Value) (params : list Value) (w : World)
  : (Fault + Value) * Heap * list string :=
  (inr (default W_Null (head params)), heap w, output w).

Definition datatypes : Datatypes :=
  Build_Datatypes is_true str replace
    (compare Z.eqb) (compare Z.gtb) (compare Z.geb) (compare Z.ltb) (compare Z.leb)
    (arith Z.add) (arith Z.sub) (arith Z.mul) division
    (unary Z.succ) (unary Z.pred)
    call.

(** A frame with the given operand stack (top first) and bindings, over the
    given array store. *)
Definition world (stack : list Value) (bindings : list (string * Value)) (h : Heap) : World :=
  mkWorld (mkFrame stack (list_to_map bindings)) h [].

End Sample.

(** ** The contracts of the opcodes *)

(** The value [RETURN] yields on a frame and the state it leaves. *)
Definition RETURN_outcome (w : World) : Value * World :=
  match valuestack (frame w) with
  | [] => (W_Null, w)
  | v :: rest => (v, with_stack rest w)
  end.

(** The contents of the array that holds the values [vs] under the keys
    "0", "1", ... in the order of the list. *)
Definition keyed_by_position (vs : list Value) : ArrayData :=
  imap (fun i v => (pretty i, v)) vs.

(** Inputs for STORE_MEMBER: the array at reference 0, empty, is on top of
    the stack, above the key "k" and the value 1; the variable [$a] is bound
    to the same array. *)
Definition store_member_input : World :=
  Sample.world [W_Array 0; W_StringObject "k"; W_IntObject 1] [("$a", W_Array 0)] [[]].

(** [keeps proj m]: whatever its outcome, the computation [m] leaves the
    part [proj] of the state as it found it. *)
Definition keeps {X A} (proj : World -> X) (m : M A) : Prop :=
  forall w, proj (m w).2 = proj w.

(** The variable environment of the frame. *)
Definition bindings (w : World) : gmap string Value := vars (frame w).

(** The stack effect the opcode table of the specification (section 4.1)
    states for an opcode: "pop k, push m" as the pair [(k, m)].  RETURN pops
    "0 or 1" and has no fixed effect; LOAD_CONSTANT and MOD have no
    contract.  The row of CALL pops two values and pushes the result of the
    callee; the row of STORE_MEMBER pops three values and pushes the
    container back. *)
Definition contract (op : Opcode) : option (nat * nat) :=
  match op with
  | LOAD_NULL | LOAD_BOOLEAN _ | LOAD_INTVAL _ | LOAD_FLOATVAL _
  | LOAD_STRINGVAL _ _ | LOAD_VAR _ _ | LOAD_FUNCTION _ => Some (0, 1)
  | LOAD_LIST n | LOAD_ARRAY n => Some (n, 1)
  | LOAD_MEMBER => Some (2, 1)
  | STORE_MEMBER => Some (3, 1)
  | ASSIGN _ _ | DISCARD_TOP | PRINT | JUMP_IF_FALSE _ => Some (1, 0)
  | DUP => Some (0, 1)
  | JUMP _ => Some (0, 0)
  | CALL => Some (2, 1)
  | EQ | GT | GE | LT | LE | AND | OR => Some (2, 1)
  | ADD | SUB | MUL | DIV => Some (2, 1)
  | NOT | INCR | DECR => Some (1, 1)
  | RETURN | LOAD_CONSTANT | MOD => None
  end.

(** The number of values the code of an opcode pushes where its contract
    says [m]: the same number, but for STORE_MEMBER, which pushes none. *)
Definition pushed (op : Opcode) (m : nat) : nat :=
  match op with
  | STORE_MEMBER => 0
  | _ => m
  end.

(** The opcodes that end normally whenever the stack holds the values
    their contract pops: their code raises nothing but the fault of a [pop]
    beyond these values. *)
Definition faults_only_on_underflow (op : Opcode) : bool :=
  match op with
  | LOAD_NULL | LOAD_BOOLEAN _ | LOAD_INTVAL _ | LOAD_FLOATVAL _
  | LOAD_FUNCTION _ | LOAD_LIST _ | LOAD_ARRAY _
  | ASSIGN _ _ | DISCARD_TOP | PRINT | JUMP _ | JUMP_IF_FALSE _
  | AND | OR | NOT => true
  | _ => false
  end.

(** The execution of one instruction on a frame: its [eval] and then, for
    the subclasses of [BaseJump], its [do_jump] at position [pos], the two
    methods through which a control-transfer opcode acts on the frame. *)
Definition run (D : Datatypes) (op : Opcode) (pos : nat) : M unit :=
  let! _ := eval D op in
  match do_jump D op pos with
  | Some jump => let! _ := jump in ret tt
  | None => ret tt
  end.

(** Inputs for the stack effects: a frame holding 7 (the variable [$x] is
    unset), and a frame holding the Boolean false. *)
Definition one_value_input : World := Sample.world [W_IntObject 7] [] [].

Definition false_input : World := Sample.world [W_Boolean false] [] [].

(** [shifts d m]: when the computation [m] ends normally, the operand
    stack is [d] values deeper than it was ([d] may be negative). *)
Definition shifts {A} (d : Z) (m : M A) : Prop :=
  forall w a w', m w = (inr a, w') ->
    Z.of_nat (valuestack_pos w') = (Z.of_nat (valuestack_pos w) + d)%Z.

(** *** String interpolation as the specification words it (section 4.3) *)

(** "The key itself begins with a variable sigil". *)
Definition begins_with_sigil (key : string) : bool :=
  match key with
  | String c _ => Ascii.eqb c "$"%char
  | EmptyString => false
  end.

(** The actual key of an index key: "if the key itself begins with a variable
    sigil, resolve that variable from the Frame and use its string form as
    the actual key, otherwise use the key literally". *)
Definition actual_key (D : Datatypes) (w : World) (key : string) : option string :=
  if begins_with_sigil key then str D (heap w) <$> bindings w !! key
  else Some key.

(** One [get(key)] navigation; [None] when it fails. *)
Definition member (w : World) (container : Value) (key : string) : option Value :=
  match container with
  | W_Array r => a ← heap w !! r; array_get key a
  | _ => None
  end.

(** "Successive [get(key)] navigations through the resolved value". *)
Fixpoint get_path (w : World) (value : Value) (keys : list string) : option Value :=
  match keys with
  | [] => Some value
  | key :: keys' => v ← member w value key; get_path w v keys'
  end.

(** The display string one reference resolves to: the base variable, the
    actual keys, the navigations, the display string of the final value. *)
Definition resolve (D : Datatypes) (w : World) (variable : StringVariable) : option string :=
  let '(_, identifier, indexes) := variable in
  base ← bindings w !! identifier;
  keys ← mapM (actual_key D w) indexes;
  final ← get_path w base keys;
  Some (str D (heap w) final).

(** The references are substituted one after the other "in the order they
    were recorded": each one replaces every occurrence of its search pattern
    in the text the references before it have left. *)
Fixpoint substitute_in_recorded_order (D : Datatypes) (w : World)
    (variables : list StringVariable) (template : string) : option string :=
  match variables with
  | [] => Some template
  | variable :: variables' =>
      text ← resolve D w variable;
      substitute_in_recorded_order D w variables' (replace D template variable.1.1 text)
  end.

(** The index keys of every reference are non-empty: on the empty key the
    test [key[0]] of the code is an index error. *)
Definition keys_nonempty (variables : list StringVariable) : Prop :=
  Forall (fun variable : StringVariable => Forall (fun key => key <> EmptyString) variable.2) variables.

(** Inputs for the interpolation: the template "$b $a" whose references were
    recorded in the order [$a], [$b], on a frame that binds [$a] to the
    string "$b" and [$b] to "X"; and a template that indexes the array [$m]
    by the variable [$k]. *)
Definition order_input : World :=
  Sample.world [] [("$a", W_StringObject "$b"); ("$b", W_StringObject "X")] [].

Definition order_variables : list StringVariable :=
  [("$a", "$a", []); ("$b", "$b", [])].

Definition index_input : World :=
  Sample.world [] [("$m", W_Array 0); ("$k", W_IntObject 1)]
    [[("0", W_StringObject "zero"); ("1", W_StringObject "one")]].

Definition index_variables : list StringVariable :=
  [("$m[$k]", "$m", ["$k"]); ("$m[0]", "$m", ["0"])].

(** Further inputs: a stack with 0 pushed first and 5 on top of it; a
    program that returns from its third instruction; a stack on which "a",
    "b", "c" were pushed in this order above a Null. *)
Definition two_values_input : World :=
  Sample.world [W_IntObject 5; W_IntObject 0] [] [].

Definition return_program : list Opcode :=
  [LOAD_INTVAL 2; LOAD_INTVAL 3; RETURN; LOAD_INTVAL 4; RETURN].

Definition three_values_input : World :=
  Sample.world [W_StringObject "c"; W_StringObject "b"; W_StringObject "a"; W_Null] [] [].

(** *** Further notions for the properties of the opcodes *)

(** One opcode after the other: [eval] of the first and, when it ends
    normally, [eval] of the second. *)
Definition then_eval (D : Datatypes) (op1 op2 : Opcode) : M (option Value) :=
  let! _ := eval D op1 in eval D op2.

(** The function of [pyhp.datatypes] a binary arithmetic opcode applies. *)
Definition arithmetic (D : Datatypes) (op : Opcode)
  : option (Heap -> Value -> Value -> Fault + Value) :=
  match op with
  | ADD => Some (plus D)
  | SUB => Some (sub D)
  | MUL => Some (mult D)
  | DIV => Some (division D)
  | _ => None
  end.

(** The function of [pyhp.datatypes] a comparison opcode applies. *)
Definition comparison (D : Datatypes) (op : Opcode)
  : option (Heap -> Value -> Value -> Fault + bool) :=
  match op with
  | EQ => Some (compare_eq D)
  | GT => Some (compare_gt D)
  | GE => Some (compare_ge D)
  | LT => Some (compare_lt D)
  | LE => Some (compare_le D)
  | _ => None
  end.

(** The function a unary opcode applies; NOT negates the truth value. *)
Definition unary_function (D : Datatypes) (op : Opcode)
  : option (Heap -> Value -> Fault + Value) :=
  match op with
  | NOT => Some (fun h v => inr (W_Boolean (negb (is_true D h v))))
  | INCR => Some (increment D)
  | DECR => Some (decrement D)
  | _ => None
  end.

(** The opcodes whose code calls [put], [W_Array()] or a callee. *)
Definition may_write_heap (op : Opcode) : bool :=
  match op with
  | LOAD_ARRAY _ | STORE_MEMBER | CALL => true
  | _ => false
  end.

(** The opcodes whose code calls [printf] or a callee. *)
Definition may_write_output (op : Opcode) : bool :=
  match op with
  | PRINT | CALL => true
  | _ => false
  end.

(** The array store [h'] holds every array of [h], unchanged. *)
Definition extends_heap (h h' : Heap) : Prop :=
  forall r a, h !! r = Some a -> h' !! r = Some a.

(** The state [w] with the values [below] added at the bottom of its
    operand stack. *)
Definition extend (below : list Value) (w : World) : World :=
  with_stack (valuestack (frame w) ++ below) w.

(** [stack_local m]: when [m] ends normally on a stack, it ends in the same
    way on that stack with more values underneath, and leaves them
    underneath. *)
Definition stack_local {A} (m : M A) : Prop :=
  forall w a w' below,
    m w = (inr a, w') -> m (extend below w) = (inr a, extend below w').

(** RETURN reads the depth of the stack, and the callee of CALL receives the
    frame of the caller. *)
Definition reads_whole_stack (op : Opcode) : bool :=
  match op with
  | RETURN | CALL => true
  | _ => false
  end.

(** Inputs: a frame with the array at reference 0 under the key "k" on the
    stack; a frame with 10 pushed first and 4 on top of it; a frame with a
    function on top of an argument list. *)
Definition member_input : World :=
  Sample.world [W_Array 0; W_StringObject "k"; W_Null] []
    [[("k", W_IntObject 1)]].

Definition operands_input : World :=
  Sample.world [W_IntObject 4; W_IntObject 10] [] [].

Definition call_input : World :=
  Sample.world [W_Function "f"; W_List [W_IntObject 8; W_IntObject 9]; W_Null] [] [].

Definition arguments_input : World :=
  Sample.world [W_IntObject 9; W_IntObject 8; W_Null] [] [].

(** A straight-line sequence of opcodes: the [eval] of each in turn, as
    long as they end normally. *)
Fixpoint eval_all (D : Datatypes) (ops : list Opcode) : M unit :=
  match ops with
  | [] => ret tt
  | op :: ops' => let! _ := eval D op in eval_all D ops'
  end.

(** A part of the state that the frame has no share in. *)
Definition frame_independent {X} (proj : World -> X) : Prop :=
  forall f h o f', proj (mkWorld f h o) = proj (mkWorld f' h o).

(** A part of the state that the array store has no share in. *)
Definition heap_independent {X} (proj : World -> X) : Prop :=
  forall f h o h', proj (mkWorld f h o) = proj (mkWorld f h' o).

(** The outcome of CALL with the callee [method] and the arguments
    [values] on a frame whose stack below the two is [rest]: the callee runs
    on the state with both popped; its result is pushed, its fault passed
    on. *)
Definition call_outcome (D : Datatypes) (method : Value) (values : list Value)
    (rest : list Value) (w : World) : (Fault + option Value) * World :=
  let '(res, h, out) := call D method values (with_stack rest w) in
  match res with
  | inr v => (inr None, mkWorld (mkFrame (v :: rest) (vars (frame w))) h out)
  | inl e => (inl e, mkWorld (mkFrame rest (vars (frame w))) h out)
  end.

(** A reference whose only index key is the empty key. *)
Definition empty_key_variables : list StringVariable :=
  [("$m[]", "$m", [EmptyString])].

(** A frame that binds [$m] to an array which holds a value under the empty
    key. *)
Definition empty_key_input : World :=
  Sample.world [] [("$m", W_Array 0)] [[(EmptyString, W_StringObject "<E>")]].

(** [__str__], the printed form of an opcode: [Opcode.__str__] gives the
    name of the class, and the classes with operands override it with a
    format string.  ['%s' % index] and ['%d' % where] write a number in
    decimal; the printed form of a value object ([W_IntObject.__str__], ...)
    belongs to [pyhp.datatypes] and is the parameter [value_str]. *)
Definition Opcode_str (value_str : Value -> string) (op : Opcode) : string :=
  match op with
  | LOAD_VAR index name => "LOAD_VAR " +:+ pretty index +:+ ", " +:+ name
  | LOAD_NULL => "LOAD_NULL"
  | LOAD_BOOLEAN value => "LOAD_BOOLEAN " +:+ value_str (W_Boolean value)
  | LOAD_INTVAL value => "LOAD_INTVAL " +:+ value_str (W_IntObject value)
  | LOAD_FLOATVAL value => "LOAD_FLOATVAL " +:+ value_str (W_FloatObject value)
  | LOAD_STRINGVAL value _ => "LOAD_STRINGVAL " +:+ value_str (W_StringObject value)
  | ASSIGN index name => "ASSIGN " +:+ pretty index +:+ ", " +:+ name
  | JUMP_IF_FALSE where_ => "JUMP_IF_FALSE " +:+ pretty where_
  | JUMP where_ => "JUMP " +:+ pretty where_
  | _ => get_name op
  end.

(** ** The monad and the frame interface: basic facts *)

Lemma bind_inr {A B} (m : M A) (k : A -> M B) (w w' : World) (a : A) :
  m w = (inr a, w') -> bind m k w = k a w'.
Proof. intros E. unfold bind. by rewrite E. Qed.

Lemma bind_inl {A B} (m : M A) (k : A -> M B) (w w' : World) (e : Fault) :
  m w = (inl e, w') -> bind m k w = (inl e, w').
Proof. intros E. unfold bind. by rewrite E. Qed.

(** A computation that succeeds is made of parts that succeed. *)
Lemma bind_success {A B} (m : M A) (k : A -> M B) (w w' : World) (b : B) :
  bind m k w = (inr b, w') ->
  exists a w1, m w = (inr a, w1) /\ k a w1 = (inr b, w').
Proof.
  unfold bind. destruct (m w) as [[e|a] w1]; [discriminate|]. eauto.
Qed.

Lemma pop_cons (w : World) (v : Value) (s : list Value) :
  valuestack (frame w) = v :: s -> pop w = (inr v, with_stack s w).
Proof. intros E. unfold pop. by rewrite E. Qed.

Lemma pop_nil (w : World) :
  valuestack (frame w) = [] -> pop w = (inl StackUnderflow, w).
Proof. intros E. unfold pop. by rewrite E. Qed.

Lemma with_stack_id (w : World) : with_stack (valuestack (frame w)) w = w.
Proof. by destruct w as [[s vs] h o]. Qed.

Lemma with_stack_twice (s s' : list Value) (w : World) :
  with_stack s (with_stack s' w) = with_stack s w.
Proof. done. Qed.

(** [pop_n] takes the [n] topmost values and returns them bottom first. *)
Lemma pop_n_app (l rest : list Value) (w : World) :
  valuestack (frame w) = rev l ++ rest ->
  pop_n (length l) w = (inr l, with_stack rest w).
Proof.
  revert w. induction l as [|x l IH] using rev_ind; intros w E.
  - simpl in *. unfold ret. by rewrite <- E, with_stack_id.
  - rewrite length_app, Nat.add_comm. simpl.
    rewrite rev_app_distr in E. simpl in E.
    rewrite (bind_inr _ _ _ _ _ (pop_cons _ _ _ E)).
    rewrite (bind_inr _ _ _ (with_stack rest w) l); [done|].
    rewrite <- (with_stack_twice rest (rev l ++ rest) w). by apply IH.
Qed.

(** A successful [pop_n] found its values on the stack. *)
Lemma pop_n_success (n : nat) (w w' : World) (l : list Value) :
  pop_n n w = (inr l, w') ->
  length l = n /\ valuestack (frame w) = rev l ++ valuestack (frame w') /\
  w' = with_stack (valuestack (frame w')) w.
Proof.
  revert w w' l. induction n as [|n IH]; intros w w' l E; simpl in E.
  - inversion E; subst. by rewrite with_stack_id.
  - apply bind_success in E as (e & w1 & E1 & E).
    apply bind_success in E as (r & w2 & E2 & E).
    inversion E; subst; clear E.
    apply IH in E2 as (Hlen & Hst & Hw).
    unfold pop in E1. destruct (valuestack (frame w)) as [|v s] eqn:Es; [discriminate|].
    inversion E1; subst; clear E1. simpl in *.
    rewrite length_app, rev_app_distr. simpl. rewrite Hst.
    split; [lia|]. split; [done|]. by rewrite Hw.
Qed.

(** *** Arrays *)

Lemma array_put_fresh (key : string) (value : Value) (a : ArrayData) :
  key ∉ a.*1 -> array_put key value a = a ++ [(key, value)].
Proof.
  induction a as [|[k v] a IH]; intros Hk; simpl; [done|].
  rewrite fmap_cons, not_elem_of_cons in Hk. destruct Hk as [Hne Hk].
  destruct (String.eqb_spec k key) as [->|_]; [done|].
  by rewrite IH.
Qed.

Lemma array_get_put (key : string) (value : Value) (a : ArrayData) :
  array_get key (array_put key value a) = Some value.
Proof.
  induction a as [|[k v] a IH]; simpl.
  - by rewrite String.eqb_refl.
  - destruct (String.eqb k key) eqn:E; simpl; by rewrite E.
Qed.

Lemma keyed_by_position_snoc (vs : list Value) (v : Value) :
  keyed_by_position (vs ++ [v]) = keyed_by_position vs ++ [(pretty (length vs), v)].
Proof.
  unfold keyed_by_position. rewrite imap_app. simpl. by rewrite Nat.add_0_r.
Qed.

(** The keys of [keyed_by_position vs] are the numbers below [length vs]. *)
Lemma keyed_by_position_keys (vs : list Value) :
  (keyed_by_position vs).*1 = pretty <$> seq 0 (length vs).
Proof.
  induction vs as [|v vs IH] using rev_ind; [done|].
  rewrite keyed_by_position_snoc, fmap_app, IH, length_app, seq_app, fmap_app.
  simpl. done.
Qed.

Lemma keyed_by_position_fresh (vs : list Value) :
  pretty (length vs) ∉ (keyed_by_position vs).*1.
Proof.
  rewrite keyed_by_position_keys. intros Hin.
  apply list_elem_of_fmap in Hin as (i & Heq & Hi).
  apply (inj pretty) in Heq. subst i.
  apply elem_of_seq in Hi. lia.
Qed.

Lemma array_get_app (key : string) (a b : ArrayData) :
  array_get key (a ++ b) =
    match array_get key a with Some v => Some v | None => array_get key b end.
Proof.
  induction a as [|[k v] a IH]; simpl; [done|].
  by destruct (String.eqb k key).
Qed.

Lemma array_get_absent (key : string) (a : ArrayData) :
  key ∉ a.*1 -> array_get key a = None.
Proof.
  induction a as [|[k v] a IH]; simpl; [done|].
  rewrite not_elem_of_cons. intros [Hne Hk].
  destruct (String.eqb_spec k key) as [->|_]; [done | auto].
Qed.

(** Reading [keyed_by_position vs] at the key of a number gives the value at
    that position of [vs]. *)
Lemma array_get_keyed_by_position (vs : list Value) (i : nat) :
  array_get (pretty i) (keyed_by_position vs) = vs !! i.
Proof.
  induction vs as [|v vs IH] using rev_ind.
  - by destruct i.
  - rewrite keyed_by_position_snoc, array_get_app, IH. simpl.
    destruct (decide (i < length vs)) as [Hlt|Hge].
    + destruct (lookup_lt_is_Some_2 vs i Hlt) as [x Hx].
      rewrite Hx. by rewrite lookup_app_l_Some with (x := x).
    + rewrite lookup_ge_None_2 by lia.
      destruct (String.eqb_spec (pretty (length vs)) (pretty i)) as [Heq|Hne].
      * apply (inj pretty) in Heq. subst i.
        by rewrite lookup_app_r, Nat.sub_diag.
      * rewrite lookup_ge_None_2; [done|].
        rewrite length_app. simpl.
        assert (i <> length vs) by congruence. lia.
Qed.

(** The loop of LOAD_ARRAY on the array it has just created, the last one of
    the store: after the values [done], the values [todo] are put under the
    numbers that follow. *)
Lemma put_enumerated_last (h : Heap) (done todo : list Value) (w : World) :
  heap w = h ++ [keyed_by_position done] ->
  put_enumerated (W_Array (length h)) (length done) todo w =
    (inr tt, with_heap (h ++ [keyed_by_position (done ++ todo)]) w).
Proof.
  revert done w. induction todo as [|el todo IH]; intros done w Hh; simpl.
  - rewrite app_nil_r, <- Hh. by destruct w.
  - assert (put (W_Array (length h)) (pretty (length done)) el w =
            (inr tt, with_heap (h ++ [keyed_by_position (done ++ [el])]) w)) as Hput.
    { unfold put. rewrite Hh.
      rewrite lookup_app_r, Nat.sub_diag by apply le_n. simpl.
      rewrite array_put_fresh by apply keyed_by_position_fresh.
      rewrite <- keyed_by_position_snoc.
      f_equal. f_equal.
      rewrite insert_app_r_alt, Nat.sub_diag by apply le_n. done. }
    rewrite (bind_inr _ _ _ _ _ Hput).
    replace (S (length done)) with (length (done ++ [el]))
      by (rewrite length_app; simpl; lia).
    rewrite IH by done.
    by rewrite <- app_assoc.
Qed.

(** *** What a computation leaves unchanged *)

Section Keeps.

Context {X : Type} (proj : World -> X).

Lemma keeps_ret {A} (a : A) : keeps proj (ret a).
Proof. by intros w. Qed.

Lemma keeps_raise {A} (e : Fault) : keeps proj (@raise A e).
Proof. by intros w. Qed.

Lemma keeps_lift {A} (r : Fault + A) : keeps proj (lift r).
Proof. by intros w. Qed.

Lemma keeps_get_heap : keeps proj get_heap.
Proof. by intros w. Qed.

Lemma keeps_get_var (name : string) (index : option Z) : keeps proj (get_var name index).
Proof. by intros w. Qed.

Lemma keeps_get_valuestack_pos : keeps proj get_valuestack_pos.
Proof. by intros w. Qed.

Lemma keeps_top : keeps proj top.
Proof. intros w. unfold top. by destruct (valuestack (frame w)). Qed.

Lemma keeps_get (container : Value) (key : string) : keeps proj (get container key).
Proof.
  intros w. unfold get. destruct container; try done.
  destruct (heap w !! ref) as [a|]; [|done]. by destruct (array_get key a).
Qed.

Lemma keeps_receiver (o : option Value) : keeps proj (receiver o).
Proof. by destruct o. Qed.

Lemma keeps_bind {A B} (m : M A) (k : A -> M B) :
  keeps proj m -> (forall a, keeps proj (k a)) -> keeps proj (bind m k).
Proof.
  intros Hm Hk w. unfold bind. specialize (Hm w).
  destruct (m w) as [[e|a] w1]; simpl in *; [done|].
  by rewrite Hk.
Qed.

End Keeps.

(** The operations on the operand stack keep the bindings. *)
Lemma keeps_bindings_push (v : Value) : keeps bindings (push v).
Proof. by intros w. Qed.

Lemma keeps_bindings_pop : keeps bindings pop.
Proof. intros w. unfold pop. by destruct (valuestack (frame w)). Qed.

Lemma keeps_bindings_pop_n (n : nat) : keeps bindings (pop_n n).
Proof.
  induction n as [|n IH]; simpl; [apply keeps_ret|].
  apply keeps_bind; [apply keeps_bindings_pop|]. intros e.
  apply keeps_bind; [done|]. intros r. apply keeps_ret.
Qed.

(** The operations on the array store and on the output keep the frame. *)
Lemma keeps_frame_new_array : keeps frame new_array.
Proof. by intros w. Qed.

Lemma keeps_frame_put (container : Value) (key : string) (value : Value) :
  keeps frame (put container key value).
Proof.
  intros w. unfold put. destruct container; try done.
  by destruct (heap w !! ref).
Qed.

Lemma keeps_frame_printf (s : string) : keeps frame (printf s).
Proof. by intros w. Qed.

Lemma keeps_frame_do_call (D : Datatypes) (method : Value) (params : list Value) :
  keeps frame (do_call D method params).
Proof. intros w. unfold do_call. by destruct (call D method params w) as [[res h] out]. Qed.

Lemma keeps_frame_put_enumerated (array : Value) (index : nat) (list_w : list Value) :
  keeps frame (put_enumerated array index list_w).
Proof.
  revert index. induction list_w as [|el l IH]; intros index; simpl.
  - apply keeps_ret.
  - apply keeps_bind; [apply keeps_frame_put | done].
Qed.

(** What keeps the frame keeps its bindings. *)
Lemma keeps_frame_bindings {A} (m : M A) : keeps frame m -> keeps bindings m.
Proof. intros H w. unfold bindings. by rewrite H. Qed.

Create HintDb keeps discriminated.

#[local] Hint Resolve keeps_ret keeps_raise keeps_lift keeps_get_heap keeps_get_var
  keeps_get_valuestack_pos keeps_top keeps_get keeps_receiver
  keeps_bindings_push keeps_bindings_pop keeps_bindings_pop_n
  keeps_frame_new_array keeps_frame_put keeps_frame_printf keeps_frame_do_call
  keeps_frame_put_enumerated : keeps.

(** Decompose a computation along its binds and case distinctions and close
    the leaves with the facts on the primitive operations. *)
Ltac keeps_tac :=
  repeat first
    [ apply keeps_bind; [| intros ?]
    | solve [auto with keeps]
    | solve [apply keeps_frame_bindings; auto with keeps]
    | match goal with
      | |- keeps _ (match ?x with _ => _ end) => destruct x
      | |- keeps _ (let _ := _ in _) => cbv zeta
      end ].

(** String interpolation reads the state and changes none of it. *)
Lemma keeps_first_is_sigil {X} (proj : World -> X) (key : string) :
  keeps proj (first_is_sigil key).
Proof. destruct key; [apply keeps_raise | apply keeps_ret]. Qed.

#[local] Hint Resolve keeps_first_is_sigil : keeps.

Lemma keeps_navigate {X} (proj : World -> X) (D : Datatypes)
    (indexes : list string) (value : option Value) :
  keeps proj (navigate D indexes value).
Proof.
  revert value. induction indexes as [|key indexes IH]; intros value; simpl.
  - apply keeps_ret.
  - keeps_tac.
Qed.

Lemma keeps_interpolate {X} (proj : World -> X) (D : Datatypes)
    (variables : list StringVariable) (stringval : string) :
  keeps proj (interpolate D variables stringval).
Proof.
  revert stringval.
  induction variables as [|[[search identifier] indexes] variables IH];
    intros stringval; simpl.
  - apply keeps_ret.
  - pose proof (keeps_navigate proj D). keeps_tac.
Qed.

#[local] Hint Resolve keeps_navigate keeps_interpolate : keeps.

(** *** The change of the stack depth *)

Lemma shifts_bind {A B} (d1 d2 d : Z) (m : M A) (k : A -> M B) :
  shifts d1 m -> (forall a, shifts d2 (k a)) -> d = (d1 + d2)%Z -> shifts d (bind m k).
Proof.
  intros Hm Hk -> w b w' E.
  apply bind_success in E as (a & w1 & E1 & E2).
  apply Hm in E1. apply Hk in E2. lia.
Qed.

Lemma shifts_raise {A} (d : Z) (e : Fault) : shifts d (@raise A e).
Proof. intros w a w' E. discriminate E. Qed.

Lemma shifts_keeps_frame {A} (d : Z) (m : M A) :
  keeps frame m -> d = 0%Z -> shifts d m.
Proof.
  intros Hm -> w a w' E. specialize (Hm w). rewrite E in Hm. simpl in Hm.
  unfold valuestack_pos. rewrite Hm. lia.
Qed.

Lemma shifts_push (d : Z) (v : Value) : d = 1%Z -> shifts d (push v).
Proof.
  intros -> w a w' E. inversion E; subst. unfold valuestack_pos. simpl. lia.
Qed.

Lemma shifts_pop (d : Z) : d = (-1)%Z -> shifts d pop.
Proof.
  intros -> w a w' E. unfold pop in E.
  destruct (valuestack (frame w)) as [|v s] eqn:Es; [discriminate|].
  inversion E; subst. unfold valuestack_pos. rewrite Es. simpl. lia.
Qed.

Lemma shifts_set_var (d : Z) (index : Z) (name : string) (v : Value) :
  d = 0%Z -> shifts d (set_var index name v).
Proof. intros -> w a w' E. inversion E; subst. unfold valuestack_pos. simpl. lia. Qed.

Lemma shifts_pop_n (d : Z) (n : nat) : d = (- Z.of_nat n)%Z -> shifts d (pop_n n).
Proof.
  intros -> w l w' E. apply pop_n_success in E as (Hl & Hs & _).
  unfold valuestack_pos. rewrite Hs, length_app, length_rev. lia.
Qed.

Create HintDb keeps_frame discriminated.

#[local] Hint Resolve keeps_ret keeps_raise keeps_lift keeps_get_heap keeps_get_var
  keeps_get_valuestack_pos keeps_top keeps_get keeps_receiver
  keeps_frame_new_array keeps_frame_put keeps_frame_printf keeps_frame_do_call
  keeps_frame_put_enumerated keeps_navigate keeps_interpolate : keeps_frame.

Ltac depth_arith := first [reflexivity | lia].

(** Add up the changes of the depth along the binds of a computation; the
    branches of a case distinction must agree. *)
Ltac shifts_tac :=
  repeat first
    [ eapply shifts_bind; [ | intros ? | ]
    | apply shifts_raise
    | apply shifts_push; depth_arith
    | apply shifts_pop; depth_arith
    | apply shifts_pop_n; depth_arith
    | apply shifts_set_var; depth_arith
    | apply shifts_keeps_frame; [solve [auto with keeps_frame] | depth_arith]
    | match goal with
      | |- shifts _ (match ?x with _ => _ end) => destruct x
      | |- shifts _ (let _ := _ in _) => cbv zeta
      | |- (_ = _)%Z => depth_arith
      end ].

Ltac unfold_opcodes :=
  unfold Opcode_eval, LOAD_VAR_eval, LOAD_FUNCTION_eval, LOAD_LIST_eval,
    LOAD_NULL_eval, LOAD_BOOLEAN_eval, LOAD_INTVAL_eval, LOAD_FLOATVAL_eval,
    LOAD_STRINGVAL_eval, LOAD_ARRAY_eval, LOAD_MEMBER_eval, STORE_MEMBER_eval,
    ASSIGN_eval, DISCARD_TOP_eval, DUP_eval, BaseJump_eval, JUMP_IF_FALSE_do_jump,
    JUMP_do_jump, RETURN_eval, PRINT_eval, CALL_eval, BaseDecision_eval,
    decision, ADD_eval, SUB_eval, MUL_eval, DIV_eval, binary_eval, NOT_eval,
    INCR_eval, DECR_eval, unary_eval.

(** The net change of the depth an opcode makes when it ends normally: what
    it pushes less what it pops. *)
Lemma run_shifts (D : Datatypes) (op : Opcode) (pos : nat) (k m : nat) :
  contract op = Some (k, m) ->
  shifts (Z.of_nat (pushed op m) - Z.of_nat k) (run D op pos).
Proof.
  intros Hc.
  destruct op; simpl in Hc; simplify_eq; simpl.
  all: unfold run, eval, returns_None; simpl; unfold_opcodes.
  all: shifts_tac.
Qed.

(** A stack of depth [n] or more is [n] values above the rest. *)
Lemma stack_split (n : nat) (w : World) :
  n <= valuestack_pos w ->
  exists vs rest, length vs = n /\ valuestack (frame w) = rev vs ++ rest.
Proof.
  intros Hn. unfold valuestack_pos in Hn.
  exists (rev (take n (valuestack (frame w)))), (drop n (valuestack (frame w))).
  rewrite length_rev, length_take, rev_involutive, take_drop. split; [lia | done].
Qed.

Lemma LOAD_LIST_eval_run (w : World) (n : nat) (vs rest : list Value) :
  length vs = n ->
  valuestack (frame w) = rev vs ++ rest ->
  LOAD_LIST_eval n w = (inr tt, with_stack (W_List vs :: rest) w).
Proof.
  intros Hn Hst. unfold LOAD_LIST_eval.
  assert (pop_n n w = (inr vs, with_stack rest w)) as H1.
  { rewrite <- Hn. by apply pop_n_app. }
  by rewrite (bind_inr _ _ _ _ _ H1).
Qed.

Lemma LOAD_ARRAY_eval_run (w : World) (n : nat) (vs rest : list Value) :
  length vs = n ->
  valuestack (frame w) = rev vs ++ rest ->
  LOAD_ARRAY_eval n w =
    (inr tt,
     with_stack (W_Array (length (heap w)) :: rest)
       (with_heap (heap w ++ [keyed_by_position vs]) w)).
Proof.
  intros Hn Hst. unfold LOAD_ARRAY_eval.
  set (w1 := with_heap (heap w ++ [[]]) w).
  assert (new_array w = (inr (W_Array (length (heap w))), w1)) as H1 by done.
  assert (pop_n n w1 = (inr vs, with_stack rest w1)) as H2.
  { rewrite <- Hn. by apply pop_n_app. }
  assert (put_enumerated (W_Array (length (heap w))) 0 vs (with_stack rest w1) =
          (inr tt, with_heap (heap w ++ [keyed_by_position vs]) (with_stack rest w1)))
    as H3.
  { by apply (put_enumerated_last (heap w) [] vs). }
  rewrite (bind_inr _ _ _ _ _ H1), (bind_inr _ _ _ _ _ H2), (bind_inr _ _ _ _ _ H3).
  reflexivity.
Qed.

(** The opcodes that fault on underflow only end normally on a stack that
    holds what they pop. *)
Lemma run_completes (D : Datatypes) (op : Opcode) (pos : nat) (w : World) (k m : nat) :
  contract op = Some (k, m) ->
  k <= valuestack_pos w ->
  faults_only_on_underflow op = true ->
  exists w', run D op pos w = (inr tt, w').
Proof.
  intros Hc Hk Hf.
  destruct op; try discriminate Hf; simpl in Hc; simplify_eq.
  all: try (destruct (stack_split _ _ Hk) as (vs & rest & Hn & Hst);
            unfold run, eval, returns_None; simpl).
  - by eexists.
  - unfold bind. rewrite (LOAD_LIST_eval_run _ _ _ _ Hn Hst). by eexists.
  - by eexists.
  - by eexists.
  - by eexists.
  - by eexists.
  - unfold bind. rewrite (LOAD_ARRAY_eval_run _ _ _ _ Hn Hst). by eexists.
  - destruct vs as [|v [|? ?]]; try discriminate Hn. simpl in Hst.
    unfold ASSIGN_eval, bind, pop. rewrite Hst. by eexists.
  - destruct vs as [|v [|? ?]]; try discriminate Hn. simpl in Hst.
    unfold DISCARD_TOP_eval, bind, pop. rewrite Hst. by eexists.
  - destruct vs as [|v [|? ?]]; try discriminate Hn. simpl in Hst.
    unfold JUMP_IF_FALSE_do_jump, BaseJump_eval, bind, pop, get_heap, ret. simpl.
    rewrite Hst. simpl. destruct (is_true D (heap w) v); by eexists.
  - by eexists.
  - destruct vs as [|v [|? ?]]; try discriminate Hn. simpl in Hst.
    unfold PRINT_eval, bind, pop. rewrite Hst. by eexists.
  - destruct vs as [|v [|v' [|? ?]]]; try discriminate Hn. simpl in Hst.
    unfold BaseDecision_eval, bind, pop. rewrite Hst. by eexists.
  - destruct vs as [|v [|v' [|? ?]]]; try discriminate Hn. simpl in Hst.
    unfold BaseDecision_eval, bind, pop. rewrite Hst. by eexists.
  - destruct vs as [|v [|? ?]]; try discriminate Hn. simpl in Hst.
    unfold NOT_eval, bind, pop. rewrite Hst. by eexists.
Qed.

(** *** String interpolation *)

Section Interpolation.

Variable D : Datatypes.

Lemma first_is_sigil_nonempty (key : string) (w : World) :
  key <> EmptyString -> first_is_sigil key w = (inr (begins_with_sigil key), w).
Proof. by destruct key. Qed.

Lemma get_member (w : World) (container : Value) (key : string) :
  match member w container key with
  | Some v => get container key w = (inr v, w)
  | None => exists e, get container key w = (inl e, w)
  end.
Proof.
  unfold member, get. destruct container; simpl; eauto.
  destruct (heap w !! ref) as [a|]; simpl; eauto.
  destruct (array_get key a); eauto.
Qed.

(** The key the inner loop navigates with is the actual key. *)
Lemma loop_key (key : string) (w : World) :
  let body : M string :=
    if begins_with_sigil key then
      let! o := get_var key None in
      let! v := receiver o in
      let! h := get_heap in
      ret (str D h v)
    else ret key in
  match actual_key D w key with
  | Some k => body w = (inr k, w)
  | None => exists e, body w = (inl e, w)
  end.
Proof.
  intros body. subst body. unfold actual_key, bindings.
  destruct (begins_with_sigil key); [|done].
  unfold bind, get_var. simpl.
  destruct (vars (frame w) !! key); simpl; eauto.
Qed.

(** The inner loop from a value that is set. *)
Lemma navigate_Some (indexes : list string) (value : Value) (w : World) :
  Forall (fun key => key <> EmptyString) indexes ->
  match mapM (actual_key D w) indexes ≫= get_path w value with
  | Some v => navigate D indexes (Some value) w = (inr (Some v), w)
  | None => exists e, navigate D indexes (Some value) w = (inl e, w)
  end.
Proof.
  intros Hne. revert value.
  induction Hne as [|key indexes Hkey Hne IH]; intros value; [done|].
  cbn [navigate mapM].
  rewrite (bind_inr _ _ _ _ _ (first_is_sigil_nonempty key w Hkey)).
  pose proof (loop_key key w) as Hk. cbv zeta in Hk.
  destruct (actual_key D w key) as [k|] eqn:Ek; simpl.
  - rewrite (bind_inr _ _ _ _ _ Hk).
    rewrite (bind_inr (receiver (Some value)) _ w w value eq_refl).
    pose proof (get_member w value k) as Hget.
    destruct (member w value k) as [v|] eqn:Em.
    + rewrite (bind_inr _ _ _ _ _ Hget).
      specialize (IH v).
      destruct (mapM (actual_key D w) indexes) as [ks|]; simpl in *; [|done].
      by rewrite Em.
    + destruct Hget as [e He]. rewrite (bind_inl _ _ _ _ _ He).
      destruct (mapM (actual_key D w) indexes) as [ks|]; simpl; [|eauto].
      rewrite Em. simpl. eauto.
  - destruct Hk as [e He]. rewrite (bind_inl _ _ _ _ _ He). eauto.
Qed.

(** The inner loop from Python's [None], the value of an unset variable: it
    faults, or it has no keys to go through and [None] is left. *)
Lemma navigate_None (indexes : list string) (w : World) :
  navigate D indexes None w = (inr None, w)
  \/ exists e, navigate D indexes None w = (inl e, w).
Proof.
  destruct indexes as [|key indexes]; [by left|]. right.
  cbn [navigate].
  destruct key as [|c key].
  - eexists. reflexivity.
  - rewrite (bind_inr _ _ w w (begins_with_sigil (String c key))) by done.
    pose proof (loop_key (String c key) w) as Hk. cbv zeta in Hk.
    destruct (actual_key D w (String c key)) as [k|].
    + rewrite (bind_inr _ _ _ _ _ Hk). eexists. reflexivity.
    + destruct Hk as [e He]. rewrite (bind_inl _ _ _ _ _ He). eauto.
Qed.

(** The two loops of LOAD_STRINGVAL compute the substitution in recorded
    order, and fault where that is undefined; they leave the state as it
    is. *)
Lemma interpolate_substitute (variables : list StringVariable) (stringval : string)
    (w : World) :
  keys_nonempty variables ->
  match substitute_in_recorded_order D w variables stringval with
  | Some s => interpolate D variables stringval w = (inr s, w)
  | None => exists e, interpolate D variables stringval w = (inl e, w)
  end.
Proof.
  intros Hne. revert stringval.
  induction Hne as [|[[search identifier] indexes] variables Hkeys Hne IH];
    intros stringval; [done|].
  cbn [interpolate substitute_in_recorded_order resolve]. simpl in Hkeys.
  rewrite (bind_inr (get_var identifier None) _ w w (vars (frame w) !! identifier) eq_refl).
  unfold bindings.
  destruct (vars (frame w) !! identifier) as [base|]; simpl.
  - pose proof (navigate_Some indexes base w Hkeys) as Hnav.
    destruct (mapM (actual_key D w) indexes) as [keys|]; simpl in *.
    + destruct (get_path w base keys) as [final|]; simpl.
      * rewrite (bind_inr _ _ _ _ _ Hnav).
        rewrite (bind_inr (receiver (Some final)) _ w w final eq_refl).
        rewrite (bind_inr get_heap _ w w (heap w) eq_refl).
        apply IH.
      * destruct Hnav as [e He]. rewrite (bind_inl _ _ _ _ _ He). eauto.
    + destruct Hnav as [e He]. rewrite (bind_inl _ _ _ _ _ He). eauto.
  - destruct (navigate_None indexes w) as [Hnav|[e Hnav]].
    + rewrite (bind_inr _ _ _ _ _ Hnav). eexists. reflexivity.
    + rewrite (bind_inl _ _ _ _ _ Hnav). eauto.
Qed.

End Interpolation.

(** ** The opcodes: theorems *)

Section Theorems.

Variable D : Datatypes.

(** C3. AND and OR always pop two operands, the right one first and then the
    left one (the one pushed first), and push the Boolean of the conjunction
    (for OR: the disjunction) of their truth values.  The stack that results
    is the Boolean on top of the values below the two operands whatever the
    operands are: neither pop is skipped. *)
Theorem AND_OR_eval (w : World) (left right : Value) (rest : list Value) :
  valuestack (frame w) = right :: left :: rest ->
  eval D AND w =
    (inr None,
     with_stack (W_Boolean (is_true D (heap w) left && is_true D (heap w) right) :: rest) w)
  /\ eval D OR w =
    (inr None,
     with_stack (W_Boolean (is_true D (heap w) left || is_true D (heap w) right) :: rest) w).
Proof.
  intros E. unfold eval, returns_None, BaseDecision_eval, bind, pop.
  rewrite E. simpl. split; reflexivity.
Qed.

(** C6. On a frame with a non-empty stack, [JUMP_IF_FALSE(target).do_jump]
    pops one value and returns [target] when the value is not true and
    [pos + 1] when it is; the frame it leaves differs from the one it found
    in the popped value only: the bindings, the array store and the output
    are the same. *)
Theorem JUMP_IF_FALSE_do_jump_spec (w : World) (value : Value) (rest : list Value)
    (target pos : nat) :
  valuestack (frame w) = value :: rest ->
  JUMP_IF_FALSE_do_jump D target pos w =
    (inr (if is_true D (heap w) value then pos + 1 else target), with_stack rest w)
  /\ frame (with_stack rest w) = mkFrame rest (vars (frame w))
  /\ heap (with_stack rest w) = heap w
  /\ output (with_stack rest w) = output w.
Proof.
  intros E. split; [|done].
  unfold JUMP_IF_FALSE_do_jump.
  rewrite (bind_inr _ _ _ _ _ (pop_cons _ _ _ E)).
  unfold bind, get_heap. simpl.
  by destruct (is_true D (heap w) value).
Qed.

(** C5. RETURN on an empty stack yields Null and pops nothing; on a
    non-empty stack it pops one value, yields it and leaves the rest of the
    stack as it was.  In both cases the dispatch loop that fetches the RETURN
    ends at once with the value yielded, whatever follows in the program. *)
Theorem RETURN_eval_spec (w : World) (fuel : nat) (program : list Opcode) (pc : nat) :
  program !! pc = Some RETURN ->
  RETURN_eval w = (inr (RETURN_outcome w).1, (RETURN_outcome w).2)
  /\ execute D (S fuel) program pc w =
       (inr (Some (RETURN_outcome w).1), (RETURN_outcome w).2).
Proof.
  intros Hpc.
  assert (RETURN_eval w = (inr (RETURN_outcome w).1, (RETURN_outcome w).2)) as HR.
  { unfold RETURN_eval, RETURN_outcome, bind, get_valuestack_pos, valuestack_pos, pop.
    destruct (valuestack (frame w)) as [|v rest] eqn:E; simpl; [reflexivity|].
    by rewrite E. }
  split; [done|].
  simpl. rewrite Hpc. unfold step, bind. simpl. unfold bind.
  by rewrite HR.
Qed.

(** C8. LOAD_VAR on a frame where the binding is absent raises the fault
    and leaves the frame as it was; where the binding is present it pushes
    the bound value and raises nothing, so the stack is one deeper.  It
    faults exactly when the variable is unset. *)
Theorem LOAD_VAR_eval_spec (w : World) (index : Z) (name : string) :
  match vars (frame w) !! name with
  | None => LOAD_VAR_eval index name w = (inl (UnboundVariable index name), w)
  | Some v =>
      LOAD_VAR_eval index name w = (inr tt, with_stack (v :: valuestack (frame w)) w)
      /\ valuestack_pos (state_after (LOAD_VAR_eval index name) w) = S (valuestack_pos w)
  end
  /\ ((exists e, (LOAD_VAR_eval index name w).1 = inl e) <-> vars (frame w) !! name = None).
Proof.
  unfold LOAD_VAR_eval, state_after, bind, get_var. simpl.
  destruct (vars (frame w) !! name) as [v|]; simpl.
  - split; [done|]. split; [intros [e He]; discriminate | discriminate].
  - split; [done|]. split; [done | eauto].
Qed.

(** C10. LOAD_LIST(0) and LOAD_ARRAY(0) run on every frame, the empty stack
    included, without a fault: they pop nothing and push an empty List, and
    an Array with no keys (a new array object).  The values already on the
    stack, the bindings and the arrays already in the store are as before,
    and the stack is one deeper. *)
Theorem LOAD_LIST_ARRAY_zero (w : World) :
  eval D (LOAD_LIST 0) w = (inr None, with_stack (W_List [] :: valuestack (frame w)) w)
  /\ eval D (LOAD_ARRAY 0) w =
       (inr None,
        with_stack (W_Array (length (heap w)) :: valuestack (frame w))
          (with_heap (heap w ++ [[]]) w))
  /\ (heap w ++ [[]]) !! length (heap w) = Some []
  /\ (forall r a, heap w !! r = Some a -> (heap w ++ [[]]) !! r = Some a)
  /\ vars (frame (state_after (eval D (LOAD_LIST 0)) w)) = vars (frame w)
  /\ vars (frame (state_after (eval D (LOAD_ARRAY 0)) w)) = vars (frame w)
  /\ valuestack_pos (state_after (eval D (LOAD_LIST 0)) w) = S (valuestack_pos w)
  /\ valuestack_pos (state_after (eval D (LOAD_ARRAY 0)) w) = S (valuestack_pos w).
Proof.
  split_and!; try reflexivity.
  - rewrite lookup_app_r, Nat.sub_diag; [done | apply le_n].
  - intros r a Hr. by apply lookup_app_l_Some.
Qed.

(** C4. For every [n] and every frame whose [n] topmost values were pushed
    in the order [vs = v0, ..., v(n-1)] (so the stack, top first, is the
    reverse of [vs] above [rest]), LOAD_ARRAY(n) pops these values and pushes
    a new array whose contents are [v0] under "0", [v1] under "1", ...: the
    key of a value is its position in the order of pushing, and the array has
    no other keys. *)
Theorem LOAD_ARRAY_eval_spec (w : World) (n : nat) (vs rest : list Value) :
  length vs = n ->
  valuestack (frame w) = rev vs ++ rest ->
  eval D (LOAD_ARRAY n) w =
    (inr None,
     with_stack (W_Array (length (heap w)) :: rest)
       (with_heap (heap w ++ [keyed_by_position vs]) w))
  /\ (heap w ++ [keyed_by_position vs]) !! length (heap w) = Some (keyed_by_position vs)
  /\ (forall i, array_get (pretty i) (keyed_by_position vs) = vs !! i)
  /\ (keyed_by_position vs).*1 = pretty <$> seq 0 n.
Proof.
  intros Hn Hst. split_and!.
  - unfold eval, returns_None, bind.
    by rewrite (LOAD_ARRAY_eval_run _ _ _ _ Hn Hst).
  - by rewrite lookup_app_r, Nat.sub_diag by apply le_n.
  - apply array_get_keyed_by_position.
  - by rewrite keyed_by_position_keys, Hn.
Qed.

(** C9. Among the opcodes of this core only ASSIGN writes a variable
    binding.  Every other opcode, the stack-only ones in particular
    (LOAD_NULL, LOAD_BOOLEAN, LOAD_INTVAL, LOAD_FLOATVAL, DUP, DISCARD_TOP,
    NOT, INCR, DECR, ADD, SUB, MUL, DIV, EQ, GT, GE, LT, LE, AND, OR), leaves
    the variable environment of the frame as it found it, whether its [eval]
    (and, for a jump, its [do_jump]) ends normally or with a fault.  ASSIGN
    binds its name to the value it pops. *)
Theorem only_ASSIGN_writes_vars (op : Opcode) (w : World) :
  match op with
  | ASSIGN index name =>
      bindings (state_after (eval D op) w) =
        match valuestack (frame w) with
        | v :: _ => <[name := v]> (bindings w)
        | [] => bindings w
        end
  | _ =>
      bindings (state_after (eval D op) w) = bindings w
      /\ (forall pos jump, do_jump D op pos = Some jump ->
            bindings (state_after jump w) = bindings w)
  end.
Proof.
  assert (forall A (m : M A), keeps bindings m -> bindings (state_after m w) = bindings w)
    as Hkeeps by (intros A m Hm; apply Hm).
  destruct op.
  all: try (split;
            [ apply Hkeeps; unfold eval, returns_None | intros pos jump [= <-]; apply Hkeeps ]).
  all: try (intros pos jump Hj; discriminate Hj).
  all: try (unfold Opcode_eval, LOAD_VAR_eval, LOAD_FUNCTION_eval, LOAD_LIST_eval,
              LOAD_NULL_eval, LOAD_BOOLEAN_eval, LOAD_INTVAL_eval, LOAD_FLOATVAL_eval,
              LOAD_STRINGVAL_eval, LOAD_ARRAY_eval, LOAD_MEMBER_eval, STORE_MEMBER_eval,
              DISCARD_TOP_eval, DUP_eval, BaseJump_eval, JUMP_IF_FALSE_do_jump,
              JUMP_do_jump, RETURN_eval, PRINT_eval, CALL_eval, BaseDecision_eval,
              decision, ADD_eval, SUB_eval, MUL_eval, DIV_eval, binary_eval, NOT_eval,
              INCR_eval, DECR_eval, unary_eval;
            keeps_tac; fail).
  (* ASSIGN *)
  unfold state_after, bindings, eval, returns_None, ASSIGN_eval, bind, pop, set_var.
  by destruct (valuestack (frame w)).
Qed.

(** C1, as the code has it.  On a frame whose three topmost values are
    (from the top) an array, a key and a value, STORE_MEMBER pops the three,
    puts the value into the array under the string form of the key, and
    pushes nothing: the stack is three values shallower.  The array is
    updated in the store, where every holder of the reference reads the new
    contents. *)
Theorem STORE_MEMBER_eval_spec (w : World) (r : nat) (a : ArrayData)
    (key value : Value) (rest : list Value) :
  valuestack (frame w) = W_Array r :: key :: value :: rest ->
  heap w !! r = Some a ->
  let a' := array_put (str D (heap w) key) value a in
  eval D STORE_MEMBER w = (inr None, with_stack rest (with_heap (<[r := a']> (heap w)) w))
  /\ (<[r := a']> (heap w)) !! r = Some a'
  /\ array_get (str D (heap w) key) a' = Some value
  /\ valuestack_pos (state_after (eval D STORE_MEMBER) w) + 3 = valuestack_pos w.
Proof.
  intros Hst Hr a'.
  assert (eval D STORE_MEMBER w =
          (inr None, with_stack rest (with_heap (<[r := a']> (heap w)) w))) as HE.
  { unfold eval, returns_None, STORE_MEMBER_eval, bind, pop, put.
    rewrite Hst. simpl. by rewrite Hr. }
  split_and!; [done | | | ].
  - apply list_lookup_insert_eq. by eapply lookup_lt_Some.
  - apply array_get_put.
  - unfold state_after. rewrite HE. unfold valuestack_pos. rewrite Hst. simpl. lia.
Qed.

(** C2, as the code has it.  Let the contract of an opcode state the stack
    effect "pop k, push m", and let the opcode be executed (its [eval], and
    for a jump its [do_jump], which is where JUMP_IF_FALSE pops) on a frame
    of depth [d >= k].  When the execution ends normally the depth is
    [d - k + m], but for STORE_MEMBER, where it is [d - 3]; and the opcodes
    that can fault on underflow only do end normally.  So every comparison
    and arithmetic opcode that ends normally nets -1 and every opcode that
    loads a constant nets +1. *)
Theorem stack_effect_of_contract (op : Opcode) (pos : nat) (w : World) (k m : nat) :
  contract op = Some (k, m) ->
  k <= valuestack_pos w ->
  (forall w', run D op pos w = (inr tt, w') ->
     valuestack_pos w' = valuestack_pos w - k + pushed op m)
  /\ (faults_only_on_underflow op = true -> exists w', run D op pos w = (inr tt, w')).
Proof.
  intros Hc Hk. split.
  - intros w' E. apply (run_shifts D op pos k m Hc) in E. lia.
  - by apply run_completes with (k := k) (m := m).
Qed.

(** C7, as the code has it.  On a literal whose index keys are all
    non-empty, the interpolation of LOAD_STRINGVAL goes through the
    references in the order [get_variables] gives them, the order in which
    they were recorded, whatever their order in the template.  For each
    reference it
    resolves the base variable, replaces every index key that begins with the
    sigil by the string form of the variable of that name, applies the keys
    as successive [get] navigations, and replaces the search pattern in the
    text by the display string of the final value.  The string that results
    is pushed; where a variable or a key is missing the opcode faults and
    pushes nothing. *)
Theorem LOAD_STRINGVAL_eval_spec (w : World) (value : string)
    (variables : list StringVariable) :
  keys_nonempty variables ->
  match substitute_in_recorded_order D w variables value with
  | Some s =>
      eval D (LOAD_STRINGVAL value variables) w =
        (inr None, with_stack (W_StringObject s :: valuestack (frame w)) w)
  | None => exists e, eval D (LOAD_STRINGVAL value variables) w = (inl e, w)
  end.
Proof.
  intros Hne. pose proof (interpolate_substitute D variables value w Hne) as H.
  unfold eval, returns_None, LOAD_STRINGVAL_eval.
  destruct (substitute_in_recorded_order D w variables value) as [s|].
  - unfold bind. by rewrite H.
  - destruct H as [e He]. exists e. unfold bind. by rewrite He.
Qed.

End Theorems.

(** C1, the input that refutes it.  STORE_MEMBER on the stack (from the top)
    array, "k", 1 leaves the empty stack: the array is not pushed back, and
    the depth has changed by -3, not by -2.  The value is in the array all
    the same, as the variable bound to the array shows. *)
Lemma STORE_MEMBER_does_not_push :
  eval Sample.datatypes STORE_MEMBER store_member_input =
    (inr None, Sample.world [] [("$a", W_Array 0)] [[("k", W_IntObject 1)]])
  /\ valuestack (frame (state_after (eval Sample.datatypes STORE_MEMBER) store_member_input))
     <> [W_Array 0]
  /\ valuestack_pos (state_after (eval Sample.datatypes STORE_MEMBER) store_member_input)
     <> valuestack_pos store_member_input - 2.
Proof. split_and!; [reflexivity | discriminate | vm_compute; lia]. Qed.

(** C7, the input that refutes it.  The reference [$m[]] has the empty
    index key, and the array bound to [$m] holds "<E>" under the empty key.
    Applied as a [get] navigation the key would give "<E>"; the code tests
    [key[0]] first, which is an index error on the empty key: the opcode
    faults and pushes nothing. *)
Lemma LOAD_STRINGVAL_empty_key_not_navigated :
  substitute_in_recorded_order Sample.datatypes empty_key_input empty_key_variables "$m[]" =
    Some "<E>"
  /\ eval Sample.datatypes (LOAD_STRINGVAL "$m[]" empty_key_variables) empty_key_input =
       (inl IndexError, empty_key_input).
Proof. split; reflexivity. Qed.

(** C2, the inputs that refute it.  STORE_MEMBER, whose contract pops three
    values and pushes one, takes the depth from 3 to 0.  The [eval] of
    JUMP_IF_FALSE, whose contract pops one value, does nothing: the depth
    stays 1 (the pop is made by [do_jump]).  LOAD_VAR of an unset variable,
    whose contract pushes one value, faults and leaves the depth at 1. *)
Lemma contract_not_met_by_eval :
  (contract STORE_MEMBER = Some (3, 1)
   /\ valuestack_pos store_member_input = 3
   /\ exists w', eval Sample.datatypes STORE_MEMBER store_member_input = (inr None, w')
                 /\ valuestack_pos w' = 0 /\ valuestack_pos w' <> 3 - 3 + 1)
  /\ (contract (JUMP_IF_FALSE 5) = Some (1, 0)
      /\ valuestack_pos false_input = 1
      /\ eval Sample.datatypes (JUMP_IF_FALSE 5) false_input = (inr None, false_input)
      /\ valuestack_pos false_input <> 1 - 1 + 0)
  /\ (contract (LOAD_VAR 0 "$x") = Some (0, 1)
      /\ valuestack_pos one_value_input = 1
      /\ eval Sample.datatypes (LOAD_VAR 0 "$x") one_value_input =
           (inl (UnboundVariable 0 "$x"), one_value_input)
      /\ valuestack_pos one_value_input <> 1 - 0 + 1).
Proof.
  split_and!; try reflexivity; try (vm_compute; lia).
  eexists. split_and!; [reflexivity | reflexivity | vm_compute; lia].
Qed.

(** ** The theorems at concrete frames *)

Lemma AND_OR_eval_witness :
  valuestack (frame two_values_input) = [W_IntObject 5; W_IntObject 0]
  /\ eval Sample.datatypes AND two_values_input =
       (inr None, Sample.world [W_Boolean false] [] [])
  /\ eval Sample.datatypes OR two_values_input =
       (inr None, Sample.world [W_Boolean true] [] []).
Proof.
  split; [reflexivity|].
  exact (AND_OR_eval Sample.datatypes two_values_input
           (W_IntObject 0) (W_IntObject 5) [] eq_refl).
Defined.

Lemma JUMP_IF_FALSE_do_jump_witness :
  valuestack (frame false_input) = [W_Boolean false]
  /\ JUMP_IF_FALSE_do_jump Sample.datatypes 4 1 false_input = (inr 4, Sample.world [] [] []).
Proof.
  split; [reflexivity|].
  exact (proj1 (JUMP_IF_FALSE_do_jump_spec Sample.datatypes false_input
                  (W_Boolean false) [] 4 1 eq_refl)).
Defined.

Lemma RETURN_eval_witness :
  return_program !! 2 = Some RETURN
  /\ RETURN_eval two_values_input = (inr (W_IntObject 5), Sample.world [W_IntObject 0] [] [])
  /\ execute Sample.datatypes 1 return_program 2 two_values_input =
       (inr (Some (W_IntObject 5)), Sample.world [W_IntObject 0] [] []).
Proof.
  split; [reflexivity|].
  exact (RETURN_eval_spec Sample.datatypes two_values_input 0 return_program 2 eq_refl).
Defined.

Lemma LOAD_ARRAY_eval_witness :
  length [W_StringObject "a"; W_StringObject "b"; W_StringObject "c"] = 3
  /\ valuestack (frame three_values_input) =
       rev [W_StringObject "a"; W_StringObject "b"; W_StringObject "c"] ++ [W_Null]
  /\ eval Sample.datatypes (LOAD_ARRAY 3) three_values_input =
       (inr None,
        Sample.world [W_Array 0; W_Null] []
          [[("0", W_StringObject "a"); ("1", W_StringObject "b"); ("2", W_StringObject "c")]]).
Proof.
  split; [reflexivity|]. split; [reflexivity|].
  exact (proj1 (LOAD_ARRAY_eval_spec Sample.datatypes three_values_input 3
                  [W_StringObject "a"; W_StringObject "b"; W_StringObject "c"] [W_Null]
                  eq_refl eq_refl)).
Defined.

Lemma STORE_MEMBER_eval_witness :
  valuestack (frame store_member_input) = [W_Array 0; W_StringObject "k"; W_IntObject 1]
  /\ heap store_member_input !! 0 = Some []
  /\ eval Sample.datatypes STORE_MEMBER store_member_input =
       (inr None, Sample.world [] [("$a", W_Array 0)] [[("k", W_IntObject 1)]]).
Proof.
  split; [reflexivity|]. split; [reflexivity|].
  exact (proj1 (STORE_MEMBER_eval_spec Sample.datatypes store_member_input 0 []
                  (W_StringObject "k") (W_IntObject 1) [] eq_refl eq_refl)).
Defined.

Lemma stack_effect_of_contract_witness :
  contract AND = Some (2, 1)
  /\ 2 <= valuestack_pos two_values_input
  /\ (forall w', run Sample.datatypes AND 0 two_values_input = (inr tt, w') ->
        valuestack_pos w' = valuestack_pos two_values_input - 2 + pushed AND 1)
  /\ (faults_only_on_underflow AND = true ->
        exists w', run Sample.datatypes AND 0 two_values_input = (inr tt, w')).
Proof.
  split; [reflexivity|]. split; [vm_compute; lia|].
  exact (stack_effect_of_contract Sample.datatypes AND 0 two_values_input 2 1
           eq_refl (le_n 2)).
Defined.

Lemma LOAD_STRINGVAL_eval_witness :
  keys_nonempty index_variables
  /\ eval Sample.datatypes (LOAD_STRINGVAL "$m[0], $m[$k]" index_variables) index_input =
       (inr None,
        with_stack [W_StringObject "zero, one"] index_input).
Proof.
  assert (keys_nonempty index_variables) as Hne.
  { repeat constructor; discriminate. }
  split; [exact Hne|].
  exact (LOAD_STRINGVAL_eval_spec Sample.datatypes index_input "$m[0], $m[$k]"
           index_variables Hne).
Defined.

(** The order of the references decides the result.  In the template
    "$b $a" the reference [$b] comes first; recorded in the order [$a], [$b]
    the interpolation first puts "$b", the value of [$a], for [$a], and then
    replaces both occurrences of [$b].  Recorded in the order of the template
    it would leave the text "$b" of [$a] in the result. *)
Example recorded_order_decides :
  eval Sample.datatypes (LOAD_STRINGVAL "$b $a" order_variables) order_input =
    (inr None, with_stack [W_StringObject "X X"] order_input)
  /\ eval Sample.datatypes (LOAD_STRINGVAL "$b $a" (rev order_variables)) order_input =
    (inr None, with_stack [W_StringObject "X $b"] order_input).
Proof. split; reflexivity. Qed.

(** The scenarios of the specification (section 8) on the dispatch loop. *)
Example scenario_add :
  execute Sample.datatypes 4 [LOAD_INTVAL 2; LOAD_INTVAL 3; ADD; RETURN] 0
    (Sample.world [] [] []) =
  (inr (Some (W_IntObject 5)), Sample.world [] [] []).
Proof. reflexivity. Qed.

Example scenario_jump_if_false :
  execute Sample.datatypes 6
    [LOAD_BOOLEAN false; JUMP_IF_FALSE 4; LOAD_INTVAL 1; RETURN; LOAD_INTVAL 0; RETURN] 0
    (Sample.world [] [] []) =
  (inr (Some (W_IntObject 0)), Sample.world [] [] []).
Proof. reflexivity. Qed.

(** Falling off the end of a program yields Null. *)
Example scenario_fall_off :
  execute Sample.datatypes 3 [LOAD_INTVAL 2; DISCARD_TOP] 0 (Sample.world [] [] []) =
  (inr (Some W_Null), Sample.world [] [] []).
Proof. reflexivity. Qed.

(** ** Further facts on the primitive operations *)

Section KeepsOutsideFrame.

Context {X : Type} (proj : World -> X).
Hypothesis Hproj : frame_independent proj.

Lemma keeps_outside_push (v : Value) : keeps proj (push v).
Proof using Hproj. intros [f h o]. apply Hproj. Qed.

Lemma keeps_outside_pop : keeps proj pop.
Proof using Hproj.
  intros [[s vs] h o]. unfold pop. simpl. destruct s; [done|]. apply Hproj.
Qed.

Lemma keeps_outside_set_var (index : Z) (name : string) (v : Value) :
  keeps proj (set_var index name v).
Proof using Hproj. intros [f h o]. apply Hproj. Qed.

Lemma keeps_outside_pop_n (n : nat) : keeps proj (pop_n n).
Proof using Hproj.
  induction n as [|n IH]; simpl; [apply keeps_ret|].
  apply keeps_bind; [apply keeps_outside_pop|]. intros e.
  apply keeps_bind; [done|]. intros r. apply keeps_ret.
Qed.

End KeepsOutsideFrame.

Lemma frame_independent_heap : frame_independent heap.
Proof. done. Qed.

Lemma frame_independent_output : frame_independent output.
Proof. done. Qed.

Lemma keeps_heap_printf (s : string) : keeps heap (printf s).
Proof. by intros w. Qed.

Lemma keeps_output_new_array : keeps output new_array.
Proof. by intros w. Qed.

Lemma keeps_output_put (container : Value) (key : string) (value : Value) :
  keeps output (put container key value).
Proof.
  intros w. unfold put. destruct container; try done.
  by destruct (heap w !! ref).
Qed.

Lemma keeps_output_put_enumerated (array : Value) (index : nat) (list_w : list Value) :
  keeps output (put_enumerated array index list_w).
Proof.
  revert index. induction list_w as [|el l IH]; intros index; simpl.
  - apply keeps_ret.
  - apply keeps_bind; [apply keeps_output_put | done].
Qed.

Create HintDb keeps_heap discriminated.

#[local] Hint Resolve keeps_ret keeps_raise keeps_lift keeps_get_heap keeps_get_var
  keeps_get_valuestack_pos keeps_top keeps_get keeps_receiver
  keeps_navigate keeps_interpolate keeps_heap_printf
  frame_independent_heap : keeps_heap.
#[local] Hint Resolve keeps_outside_push keeps_outside_pop keeps_outside_set_var
  keeps_outside_pop_n : keeps_heap.

Create HintDb keeps_output discriminated.

#[local] Hint Resolve keeps_ret keeps_raise keeps_lift keeps_get_heap keeps_get_var
  keeps_get_valuestack_pos keeps_top keeps_get keeps_receiver
  keeps_navigate keeps_interpolate keeps_output_new_array keeps_output_put
  keeps_output_put_enumerated frame_independent_output : keeps_output.
#[local] Hint Resolve keeps_outside_push keeps_outside_pop keeps_outside_set_var
  keeps_outside_pop_n : keeps_output.

Ltac keeps_with db :=
  repeat first
    [ apply keeps_bind; [| intros ?]
    | solve [auto with db]
    | match goal with
      | |- keeps _ (match ?x with _ => _ end) => destruct x
      | |- keeps _ (let _ := _ in _) => cbv zeta
      end ].

(** [pop_n] on a stack that is too short. *)
Lemma pop_n_underflow (n : nat) (w : World) :
  valuestack_pos w < n -> exists w', pop_n n w = (inl StackUnderflow, w').
Proof.
  revert w. induction n as [|n IH]; intros w Hlt; [lia|].
  simpl. unfold valuestack_pos in Hlt.
  destruct (valuestack (frame w)) as [|v s] eqn:Hst.
  - exists w. by rewrite (bind_inl _ _ _ _ _ (pop_nil _ Hst)).
  - rewrite (bind_inr _ _ _ _ _ (pop_cons _ _ _ Hst)).
    destruct (IH (with_stack s w)) as [w' Hw'].
    { unfold valuestack_pos. simpl in *. lia. }
    exists w'. by rewrite (bind_inl _ _ _ _ _ Hw').
Qed.

(** A computation that keeps the whole state returns the state it got. *)
Lemma keeps_state {A} (m : M A) (w w' : World) (r : Fault + A) :
  keeps (fun w => w) m -> m w = (r, w') -> w' = w.
Proof. intros Hm E. specialize (Hm w). by rewrite E in Hm. Qed.

(** [put] into the last array of the store changes that array only. *)
Lemma put_last (h : Heap) (x : ArrayData) (key : string) (value : Value) (w : World) :
  heap w = h ++ [x] ->
  exists x', heap (put (W_Array (length h)) key value w).2 = h ++ [x'].
Proof.
  intros Hh. unfold put. rewrite Hh.
  rewrite lookup_app_r, Nat.sub_diag by apply le_n. simpl.
  rewrite insert_app_r_alt, Nat.sub_diag by apply le_n. simpl. eauto.
Qed.

Lemma put_enumerated_last_array (h : Heap) (x : ArrayData) (index : nat)
    (list_w : list Value) (w : World) :
  heap w = h ++ [x] ->
  exists x', heap (put_enumerated (W_Array (length h)) index list_w w).2 = h ++ [x'].
Proof.
  revert x index w. induction list_w as [|el l IH]; intros x index w Hh; simpl.
  - eauto.
  - destruct (put_last h x (pretty index) el w Hh) as [x1 Hx1].
    unfold bind.
    destruct (put (W_Array (length h)) (pretty index) el w) as [[e|[]] w1]; simpl in *.
    + eauto.
    + by apply (IH x1).
Qed.

Lemma bind_assoc {A B C} (m : M A) (k : A -> M B) (k' : B -> M C) (w : World) :
  bind (bind m k) k' w = bind m (fun a => bind (k a) k') w.
Proof. unfold bind. by destruct (m w) as [[e|a] w1]. Qed.

Lemma bind_ext {A B} (m : M A) (k k' : A -> M B) (w : World) :
  (forall a w1, k a w1 = k' a w1) -> bind m k w = bind m k' w.
Proof. intros Hk. unfold bind. by destruct (m w) as [[e|a] w1]. Qed.

(** The loops of LOAD_STRINGVAL one after the other. *)
Lemma interpolate_app (D : Datatypes) (vs1 vs2 : list StringVariable)
    (stringval : string) (w : World) :
  interpolate D (vs1 ++ vs2) stringval w =
    bind (interpolate D vs1 stringval) (interpolate D vs2) w.
Proof.
  revert stringval w.
  induction vs1 as [|[[search identifier] indexes] vs1 IH]; intros stringval w; [done|].
  cbn [interpolate app].
  rewrite bind_assoc. apply bind_ext. intros o w1.
  rewrite bind_assoc. apply bind_ext. intros o' w2.
  rewrite bind_assoc. apply bind_ext. intros v w3.
  rewrite bind_assoc. apply bind_ext. intros h w4.
  apply IH.
Qed.

(** The inner loop faults on a list of keys that holds the empty key. *)
Lemma navigate_empty_key (D : Datatypes) (indexes : list string) (value : option Value)
    (w : World) :
  EmptyString ∈ indexes -> exists e, navigate D indexes value w = (inl e, w).
Proof.
  intros Hin. revert value.
  induction indexes as [|key indexes IH]; intros value; [by apply elem_of_nil in Hin|].
  destruct (navigate D (key :: indexes) value w) as [[e|o] w1] eqn:En.
  - apply (keeps_state _ _ _ _ (keeps_navigate (fun w => w) D _ _)) in En as Hw.
    subst w1. eauto.
  - exfalso. cbn [navigate] in En.
    apply bind_success in En as (sigil & w2 & E1 & En).
    destruct key as [|c key]; [discriminate E1|].
    apply elem_of_cons in Hin as [Hin|Hin]; [discriminate Hin|].
    inversion E1; subst; clear E1.
    apply bind_success in En as (k & w3 & E2 & En).
    assert (w3 = w2) as ->.
    { eapply keeps_state; [|exact E2]. keeps_tac. }
    apply bind_success in En as (container & w4 & E3 & En).
    apply (keeps_state _ _ _ _ (keeps_receiver (fun w => w) value)) in E3 as Hw. subst w4.
    apply bind_success in En as (v & w5 & E4 & En).
    apply (keeps_state _ _ _ _ (keeps_get (fun w => w) container k)) in E4 as Hw. subst w5.
    destruct (IH Hin (Some v)) as [e He]. congruence.
Qed.

(** The outer loop faults on references that hold the empty key. *)
Lemma interpolate_empty_key (D : Datatypes) (variables : list StringVariable)
    (stringval : string) (w : World) :
  Exists (fun variable : StringVariable => EmptyString ∈ variable.2) variables ->
  exists e, interpolate D variables stringval w = (inl e, w).
Proof.
  intros Hex. revert stringval.
  induction Hex as [[[search identifier] indexes] variables Hin
                   |[[search identifier] indexes] variables Hex IH]; intros stringval.
  - cbn [interpolate]. simpl in Hin.
    destruct (navigate_empty_key D indexes (vars (frame w) !! identifier) w Hin) as [e He].
    exists e. unfold bind at 1, get_var. simpl. by rewrite (bind_inl _ _ _ _ _ He).
  - destruct (interpolate D ((search, identifier, indexes) :: variables) stringval w)
      as [[e|s] w1] eqn:En.
    + apply (keeps_state _ _ _ _ (keeps_interpolate (fun w => w) D _ _)) in En as Hw.
      subst w1. eauto.
    + exfalso. cbn [interpolate] in En.
      apply bind_success in En as (o & w2 & E1 & En). inversion E1; subst; clear E1.
      apply bind_success in En as (o' & w3 & E2 & En).
      apply (keeps_state _ _ _ _ (keeps_navigate (fun w => w) D _ _)) in E2 as Hw. subst w3.
      apply bind_success in En as (v & w4 & E3 & En).
      apply (keeps_state _ _ _ _ (keeps_receiver (fun w => w) o')) in E3 as Hw. subst w4.
      apply bind_success in En as (h & w5 & E4 & En). inversion E4; subst; clear E4.
      destruct (IH (replace D stringval search (str D (heap w5) v))) as [e He].
      congruence.
Qed.

(** *** Values underneath the operands *)

Lemma extend_with_stack (below s : list Value) (w : World) :
  extend below (with_stack s w) = with_stack (s ++ below) w.
Proof. done. Qed.

Lemma stack_local_ret {A} (a : A) : stack_local (ret a).
Proof. intros w a' w' below E. inversion E; subst. done. Qed.

Lemma stack_local_raise {A} (e : Fault) : stack_local (@raise A e).
Proof. intros w a w' below E. discriminate E. Qed.

Lemma stack_local_lift {A} (r : Fault + A) : stack_local (lift r).
Proof. intros w a w' below E. inversion E; subst. done. Qed.

Lemma stack_local_bind {A B} (m : M A) (k : A -> M B) :
  stack_local m -> (forall a, stack_local (k a)) -> stack_local (bind m k).
Proof.
  intros Hm Hk w b w' below E.
  apply bind_success in E as (a & w1 & E1 & E2).
  rewrite (bind_inr _ _ _ _ _ (Hm _ _ _ below E1)). by apply Hk.
Qed.

Lemma stack_local_push (v : Value) : stack_local (push v).
Proof. intros w a w' below E. inversion E; subst. done. Qed.

Lemma stack_local_pop : stack_local pop.
Proof.
  intros w v w' below E. unfold pop in *. unfold extend at 1. simpl.
  destruct (valuestack (frame w)) as [|x s]; [discriminate|].
  inversion E; subst. done.
Qed.

Lemma stack_local_top : stack_local top.
Proof.
  intros w v w' below E. unfold top in *. unfold extend at 1. simpl.
  destruct (valuestack (frame w)) as [|x s] eqn:Hst; [discriminate|].
  inversion E; subst. unfold extend. by rewrite Hst.
Qed.

Lemma stack_local_pop_n (n : nat) : stack_local (pop_n n).
Proof.
  induction n as [|n IH]; simpl; [apply stack_local_ret|].
  apply stack_local_bind; [apply stack_local_pop|]. intros e.
  apply stack_local_bind; [done|]. intros r. apply stack_local_ret.
Qed.

Lemma stack_local_get_var (name : string) (index : option Z) :
  stack_local (get_var name index).
Proof. intros w a w' below E. inversion E; subst. done. Qed.

Lemma stack_local_set_var (index : Z) (name : string) (v : Value) :
  stack_local (set_var index name v).
Proof. intros w a w' below E. inversion E; subst. done. Qed.

Lemma stack_local_get_heap : stack_local get_heap.
Proof. intros w a w' below E. inversion E; subst. done. Qed.

Lemma stack_local_new_array : stack_local new_array.
Proof. intros w a w' below E. inversion E; subst. done. Qed.

Lemma stack_local_put (container : Value) (key : string) (value : Value) :
  stack_local (put container key value).
Proof.
  intros w a w' below E. unfold put in *. destruct container; try discriminate.
  simpl. destruct (heap w !! ref); [|discriminate].
  inversion E; subst. done.
Qed.

Lemma stack_local_get (container : Value) (key : string) :
  stack_local (get container key).
Proof.
  intros w a w' below E. unfold get in *. destruct container; try discriminate.
  simpl. destruct (heap w !! ref) as [x|]; [|discriminate].
  destruct (array_get key x); [|discriminate].
  inversion E; subst. done.
Qed.

Lemma stack_local_receiver (o : option Value) : stack_local (receiver o).
Proof. destruct o; [apply stack_local_ret | apply stack_local_raise]. Qed.

Lemma stack_local_printf (s : string) : stack_local (printf s).
Proof. intros w a w' below E. inversion E; subst. done. Qed.

Lemma stack_local_first_is_sigil (key : string) : stack_local (first_is_sigil key).
Proof. destruct key; [apply stack_local_raise | apply stack_local_ret]. Qed.

Lemma stack_local_put_enumerated (array : Value) (index : nat) (list_w : list Value) :
  stack_local (put_enumerated array index list_w).
Proof.
  revert index. induction list_w as [|el l IH]; intros index; simpl.
  - apply stack_local_ret.
  - apply stack_local_bind; [apply stack_local_put | done].
Qed.

Create HintDb stack_local discriminated.

#[local] Hint Resolve stack_local_ret stack_local_raise stack_local_lift
  stack_local_push stack_local_pop stack_local_top stack_local_pop_n
  stack_local_get_var stack_local_set_var stack_local_get_heap
  stack_local_new_array stack_local_put stack_local_get stack_local_receiver
  stack_local_printf stack_local_first_is_sigil stack_local_put_enumerated
  : stack_local.

Ltac stack_local_tac :=
  repeat first
    [ apply stack_local_bind; [| intros ?]
    | solve [auto with stack_local]
    | match goal with
      | |- stack_local (match ?x with _ => _ end) => destruct x
      | |- stack_local (let _ := _ in _) => cbv zeta
      end ].

Lemma stack_local_navigate (D : Datatypes) (indexes : list string) (value : option Value) :
  stack_local (navigate D indexes value).
Proof.
  revert value. induction indexes as [|key indexes IH]; intros value; simpl.
  - apply stack_local_ret.
  - stack_local_tac.
Qed.

Lemma stack_local_interpolate (D : Datatypes) (variables : list StringVariable)
    (stringval : string) :
  stack_local (interpolate D variables stringval).
Proof.
  revert stringval.
  induction variables as [|[[search identifier] indexes] variables IH];
    intros stringval; simpl.
  - apply stack_local_ret.
  - pose proof (stack_local_navigate D). stack_local_tac.
Qed.

#[local] Hint Resolve stack_local_navigate stack_local_interpolate : stack_local.

(** ** Further properties of the opcodes *)

Section Properties.

Variable D : Datatypes.

(** LOAD_MEMBER pops the container first and the key second, reads the
    container at the string form of the key and pushes what it finds; when
    the key is missing both values are gone from the stack and nothing is
    pushed. *)
Theorem LOAD_MEMBER_eval_spec (w : World) (r : nat) (a : ArrayData) (key : Value)
    (rest : list Value) :
  valuestack (frame w) = W_Array r :: key :: rest ->
  heap w !! r = Some a ->
  eval D LOAD_MEMBER w =
    match array_get (str D (heap w) key) a with
    | Some v => (inr None, with_stack (v :: rest) w)
    | None => (inl (UndefinedKey (str D (heap w) key)), with_stack rest w)
    end.
Proof.
  intros Hst Hr.
  unfold eval, returns_None, LOAD_MEMBER_eval, bind, pop, get. rewrite Hst. simpl.
  rewrite Hr. by destruct (array_get (str D (heap w) key) a).
Qed.

(** What STORE_MEMBER stores LOAD_MEMBER loads: after a store into an array,
    a load from the same reference with a key of the same string form pushes
    the stored value, whatever the array held before. *)
Theorem STORE_MEMBER_then_LOAD_MEMBER (w : World) (r : nat) (a : ArrayData)
    (key value key' : Value) (rest rest' : list Value) :
  valuestack (frame w) = W_Array r :: key :: value :: rest ->
  heap w !! r = Some a ->
  let w1 := state_after (eval D STORE_MEMBER) w in
  str D (heap w1) key' = str D (heap w) key ->
  eval D LOAD_MEMBER (with_stack (W_Array r :: key' :: rest') w1) =
    (inr None, with_stack (value :: rest') w1).
Proof.
  intros Hst Hr w1 Hkey.
  assert (w1 = with_stack rest
                 (with_heap (<[r := array_put (str D (heap w) key) value a]> (heap w)) w))
    as Hw1.
  { subst w1.
    unfold state_after, eval, returns_None, STORE_MEMBER_eval, bind, pop, put.
    rewrite Hst. simpl. by rewrite Hr. }
  assert (heap w1 !! r = Some (array_put (str D (heap w) key) value a)) as Hr1.
  { rewrite Hw1. simpl. apply list_lookup_insert_eq. by eapply lookup_lt_Some. }
  unfold eval, returns_None, LOAD_MEMBER_eval, bind, pop, get. simpl.
  rewrite Hr1, Hkey, array_get_put. reflexivity.
Qed.

(** What ASSIGN binds LOAD_VAR loads: ASSIGN of a variable followed by
    LOAD_VAR of the same variable (the same slot and name) restores the
    stack, binds the variable to the value on top, and leaves every other
    binding as it was. *)
Theorem ASSIGN_then_LOAD_VAR (w : World) (index : Z) (name : string)
    (v : Value) (rest : list Value) :
  valuestack (frame w) = v :: rest ->
  then_eval D (ASSIGN index name) (LOAD_VAR index name) w =
    (inr None, with_vars (<[name := v]> (bindings w)) w)
  /\ forall other, other <> name ->
       bindings (with_vars (<[name := v]> (bindings w)) w) !! other = bindings w !! other.
Proof.
  intros Hst. split.
  - unfold then_eval, eval, returns_None, ASSIGN_eval, LOAD_VAR_eval, bind, pop,
      set_var, get_var, push, with_vars, with_stack, bindings.
    rewrite Hst. simpl. rewrite lookup_insert_eq. simpl.
    destruct w as [[s vs] h o]. simpl in *. by subst s.
  - intros other Hne. unfold bindings. simpl. by rewrite lookup_insert_ne.
Qed.

(** DUP on an empty stack faults and changes nothing; on a non-empty stack
    it pushes the top value a second time, and DISCARD_TOP after it gives
    back the state DUP found. *)
Theorem DUP_eval_spec (w : World) :
  match valuestack (frame w) with
  | [] => eval D DUP w = (inl StackUnderflow, w)
  | v :: s =>
      eval D DUP w = (inr None, with_stack (v :: v :: s) w)
      /\ then_eval D DUP DISCARD_TOP w = (inr None, w)
  end.
Proof.
  unfold then_eval, eval, returns_None, DUP_eval, DISCARD_TOP_eval, bind, top, pop, push.
  destruct (valuestack (frame w)) as [|v s] eqn:Hst; simpl; [done|].
  unfold ret. rewrite with_stack_twice, with_stack_id. by rewrite Hst.
Qed.

(** ADD, SUB, MUL and DIV apply their function to the value pushed first as
    the left operand and the value on top as the right operand, and push the
    result.  A fault of the function (a division by zero) is the fault of
    the opcode: the two operands are gone and nothing is pushed. *)
Theorem arithmetic_eval (op : Opcode) (f : Heap -> Value -> Value -> Fault + Value)
    (w : World) (left right : Value) (rest : list Value) :
  arithmetic D op = Some f ->
  valuestack (frame w) = right :: left :: rest ->
  eval D op w =
    match f (heap w) left right with
    | inr v => (inr None, with_stack (v :: rest) w)
    | inl e => (inl e, with_stack rest w)
    end.
Proof.
  intros Hf Hst.
  destruct op; try discriminate Hf; injection Hf as <-.
  all: unfold eval, returns_None, ADD_eval, SUB_eval, MUL_eval, DIV_eval, binary_eval,
         bind, pop, lift, get_heap.
  all: rewrite Hst; simpl.
  - by destruct (plus D (heap w) left right).
  - by destruct (sub D (heap w) left right).
  - by destruct (mult D (heap w) left right).
  - by destruct (division D (heap w) left right).
Qed.

(** EQ, GT, GE, LT and LE compare the value pushed first, as the left
    operand, with the value on top and push the Boolean of the answer; when
    the comparison faults the two operands are gone and nothing is pushed. *)
Theorem comparison_eval (op : Opcode) (f : Heap -> Value -> Value -> Fault + bool)
    (w : World) (left right : Value) (rest : list Value) :
  comparison D op = Some f ->
  valuestack (frame w) = right :: left :: rest ->
  eval D op w =
    match f (heap w) left right with
    | inr b => (inr None, with_stack (W_Boolean b :: rest) w)
    | inl e => (inl e, with_stack rest w)
    end.
Proof.
  intros Hf Hst.
  destruct op; try discriminate Hf; injection Hf as <-.
  all: unfold eval, returns_None, BaseDecision_eval, decision, bind, pop, lift, get_heap.
  all: rewrite Hst; simpl.
  - by destruct (compare_eq D (heap w) left right).
  - by destruct (compare_gt D (heap w) left right).
  - by destruct (compare_ge D (heap w) left right).
  - by destruct (compare_lt D (heap w) left right).
  - by destruct (compare_le D (heap w) left right).
Qed.

(** NOT, INCR and DECR replace the top value by the result of their
    function; when INCR or DECR faults the operand is gone and nothing is
    pushed.  NOT never faults on a non-empty stack. *)
Theorem unary_opcode_eval (op : Opcode) (f : Heap -> Value -> Fault + Value)
    (w : World) (v : Value) (rest : list Value) :
  unary_function D op = Some f ->
  valuestack (frame w) = v :: rest ->
  eval D op w =
    match f (heap w) v with
    | inr v' => (inr None, with_stack (v' :: rest) w)
    | inl e => (inl e, with_stack rest w)
    end.
Proof.
  intros Hf Hst.
  destruct op; try discriminate Hf; injection Hf as <-.
  all: unfold eval, returns_None, NOT_eval, INCR_eval, DECR_eval, unary_eval,
         bind, pop, lift, get_heap.
  all: rewrite Hst; simpl.
  - done.
  - by destruct (increment D (heap w) v).
  - by destruct (decrement D (heap w) v).
Qed.

(** CALL pops the callee first and the argument list second.  A callee
    that is no function fails the first assertion, whatever the second value
    is; arguments that are no List fail the second.  Otherwise the callee
    runs on the arguments and on the state with both values popped, and its
    result is pushed; a fault of the callee is the fault of CALL. *)
Theorem CALL_eval_spec (w : World) (method params : Value) (rest : list Value) :
  valuestack (frame w) = method :: params :: rest ->
  eval D CALL w =
    if is_W_Function method then
      match params with
      | W_List values => call_outcome D method values rest w
      | _ => (inl AssertionError, with_stack rest w)
      end
    else (inl AssertionError, with_stack rest w).
Proof.
  intros Hst.
  unfold eval, returns_None, CALL_eval, call_outcome, do_call, bind, pop.
  rewrite Hst. simpl.
  destruct (is_W_Function method); [|done].
  destruct params; try done.
  unfold with_stack. simpl.
  by destruct (call D method values _) as [[[e|v] h] out].
Qed.

(** LOAD_LIST(n), LOAD_FUNCTION and CALL in a row call the function with
    the [n] values in the order in which they were pushed. *)
Theorem LOAD_LIST_then_CALL (w : World) (n : nat) (vs rest : list Value)
    (function : list Opcode) :
  length vs = n ->
  valuestack (frame w) = rev vs ++ rest ->
  eval_all D [LOAD_LIST n; LOAD_FUNCTION function; CALL] w =
    match call_outcome D (W_CodeFunction function) vs rest w with
    | (inr _, w') => (inr tt, w')
    | (inl e, w') => (inl e, w')
    end.
Proof.
  intros Hn Hst.
  unfold eval_all, eval, returns_None, bind.
  rewrite (LOAD_LIST_eval_run _ _ _ _ Hn Hst).
  unfold LOAD_FUNCTION_eval, CALL_eval, call_outcome, do_call, bind, pop, push. simpl.
  unfold with_stack. simpl.
  by destruct (call D (W_CodeFunction function) vs _) as [[[e|v] h] out].
Qed.

(** PRINT on an empty stack faults and writes nothing; otherwise it pops
    one value and appends its display string to the output, after what was
    written before. *)
Theorem PRINT_eval_spec (w : World) :
  eval D PRINT w =
    match valuestack (frame w) with
    | [] => (inl StackUnderflow, w)
    | v :: s =>
        (inr None,
         mkWorld (mkFrame s (vars (frame w))) (heap w) (output w ++ [str D (heap w) v]))
    end.
Proof.
  unfold eval, returns_None, PRINT_eval, bind, pop, printf, get_heap.
  by destruct (valuestack (frame w)).
Qed.

(** An opcode executed on a stack that holds fewer values than its contract
    pops faults with StackUnderflow. *)
Theorem underflow_faults (op : Opcode) (pos : nat) (w : World) (k m : nat) :
  contract op = Some (k, m) ->
  valuestack_pos w < k ->
  exists w', run D op pos w = (inl StackUnderflow, w').
Proof.
  intros Hc Hlt.
  destruct op; simpl in Hc; simplify_eq; try lia.
  all: unfold run, eval, returns_None; simpl; unfold_opcodes.
  all: try (destruct (pop_n_underflow _ _ Hlt) as [w' Hw']).
  all: try (unfold valuestack_pos in Hlt;
            destruct w as [[s vs] h o]; simpl in Hlt;
            destruct s as [|a [|b [|c s]]]; simpl in Hlt; try lia;
            eexists; reflexivity).
  - exists w'. unfold bind. by rewrite Hw'.
  - destruct (pop_n_underflow k (with_heap (heap w ++ [[]]) w)) as [w'' Hw''];
      [done|].
    exists w''. unfold bind, new_array. by rewrite Hw''.
Qed.

(** No opcode but LOAD_ARRAY, STORE_MEMBER and CALL changes the array
    store: whatever the outcome of its [eval] (and, for a jump, of its
    [do_jump]), every array object holds what it held. *)
Theorem heap_kept (op : Opcode) (w : World) :
  may_write_heap op = false ->
  heap (state_after (eval D op) w) = heap w
  /\ (forall pos jump, do_jump D op pos = Some jump -> heap (state_after jump w) = heap w).
Proof.
  intros Hop.
  assert (forall A (m : M A), keeps heap m -> heap (state_after m w) = heap w)
    as Hkeeps by (intros A m Hm; apply Hm).
  destruct op; try discriminate Hop.
  all: split;
    [ apply Hkeeps; unfold eval, returns_None
    | intros pos jump Hj; try discriminate Hj; injection Hj as <-; apply Hkeeps ].
  all: unfold_opcodes; keeps_with keeps_heap.
Qed.

(** No opcode but PRINT and CALL writes to the output. *)
Theorem output_kept (op : Opcode) (w : World) :
  may_write_output op = false ->
  output (state_after (eval D op) w) = output w
  /\ (forall pos jump, do_jump D op pos = Some jump ->
        output (state_after jump w) = output w).
Proof.
  intros Hop.
  assert (forall A (m : M A), keeps output m -> output (state_after m w) = output w)
    as Hkeeps by (intros A m Hm; apply Hm).
  destruct op; try discriminate Hop.
  all: split;
    [ apply Hkeeps; unfold eval, returns_None
    | intros pos jump Hj; try discriminate Hj; injection Hj as <-; apply Hkeeps ].
  all: unfold_opcodes; keeps_with keeps_output.
Qed.

(** LOAD_ARRAY adds one array object to the store and leaves the arrays
    that were there as they were, whether it ends normally or faults on a
    stack that is too short. *)
Theorem LOAD_ARRAY_extends_heap (n : nat) (w : World) :
  extends_heap (heap w) (heap (state_after (eval D (LOAD_ARRAY n)) w))
  /\ length (heap (state_after (eval D (LOAD_ARRAY n)) w)) = S (length (heap w)).
Proof.
  assert (exists x, heap (state_after (eval D (LOAD_ARRAY n)) w) = heap w ++ [x]) as [x Hx].
  { unfold state_after, eval, returns_None, LOAD_ARRAY_eval, bind at 1 2, new_array.
    set (w1 := with_heap (heap w ++ [[]]) w).
    unfold bind at 1.
    destruct (pop_n n w1) as [[e|l] w2] eqn:Epop.
    - pose proof (keeps_outside_pop_n heap frame_independent_heap n w1) as Hk.
      rewrite Epop in Hk. simpl in *. eauto.
    - pose proof (keeps_outside_pop_n heap frame_independent_heap n w1) as Hk.
      rewrite Epop in Hk. simpl in Hk.
      destruct (put_enumerated_last_array (heap w) [] 0 l w2 Hk) as [x Hx].
      unfold bind.
      destruct (put_enumerated (W_Array (length (heap w))) 0 l w2) as [[e|[]] w3];
        simpl in *; eauto. }
  rewrite Hx. split.
  - intros r a Hr. by apply lookup_app_l_Some.
  - rewrite length_app. simpl. lia.
Qed.


(** LOAD_STRINGVAL only reads: whatever its outcome, the bindings, the
    array store and the output are as before; when it faults the stack is as
    before too, and when it ends normally the stack has one string more.
    Without references it pushes its literal. *)
Theorem LOAD_STRINGVAL_reads_only (w : World) (value : string)
    (variables : list StringVariable) :
  match eval D (LOAD_STRINGVAL value variables) w with
  | (inl _, w') => w' = w
  | (inr _, w') => exists s, w' = with_stack (W_StringObject s :: valuestack (frame w)) w
  end
  /\ eval D (LOAD_STRINGVAL value []) w =
       (inr None, with_stack (W_StringObject value :: valuestack (frame w)) w).
Proof.
  split; [|done].
  unfold eval, returns_None, LOAD_STRINGVAL_eval, bind.
  destruct (interpolate D variables value w) as [[e|s] w1] eqn:E.
  - by apply (keeps_state _ _ _ _ (keeps_interpolate (fun w => w) D _ _)) in E.
  - apply (keeps_state _ _ _ _ (keeps_interpolate (fun w => w) D _ _)) in E as ->.
    simpl. eauto.
Qed.

(** The references are worked off one after the other: interpolating a
    list of references is interpolating its first part and then, in the text
    that results, the rest. *)
Theorem LOAD_STRINGVAL_app (w : World) (value : string)
    (vs1 vs2 : list StringVariable) :
  eval D (LOAD_STRINGVAL value (vs1 ++ vs2)) w =
    bind (interpolate D vs1 value) (fun s => eval D (LOAD_STRINGVAL s vs2)) w.
Proof.
  unfold eval, returns_None, LOAD_STRINGVAL_eval.
  unfold bind at 1 2. rewrite interpolate_app.
  unfold bind. by destruct (interpolate D vs1 value w) as [[e|s] w1].
Qed.

(** A literal one of whose references has an empty index key never ends
    normally: LOAD_STRINGVAL faults and pushes nothing. *)
Theorem LOAD_STRINGVAL_empty_key (w : World) (value : string)
    (variables : list StringVariable) :
  Exists (fun variable : StringVariable => EmptyString ∈ variable.2) variables ->
  exists e, eval D (LOAD_STRINGVAL value variables) w = (inl e, w).
Proof.
  intros Hex. destruct (interpolate_empty_key D variables value w Hex) as [e He].
  exists e. unfold eval, returns_None, LOAD_STRINGVAL_eval, bind. by rewrite He.
Qed.

(** No opcode but RETURN and CALL looks below its operands: when its
    [eval] (or, for a jump, its [do_jump]) ends normally on a stack, it ends
    in the same way on that stack with further values underneath, and these
    values stay underneath, untouched. *)
Theorem opcodes_stack_local (op : Opcode) :
  reads_whole_stack op = false ->
  stack_local (eval D op)
  /\ (forall pos jump, do_jump D op pos = Some jump -> stack_local jump).
Proof.
  intros Hop.
  destruct op; try discriminate Hop.
  all: split;
    [ unfold eval, returns_None
    | intros pos jump Hj; try discriminate Hj; injection Hj as <- ].
  all: unfold_opcodes; stack_local_tac.
Qed.

End Properties.


(** ** The further properties at concrete frames *)

Lemma LOAD_MEMBER_eval_witness :
  valuestack (frame member_input) = [W_Array 0; W_StringObject "k"; W_Null]
  /\ heap member_input !! 0 = Some [("k", W_IntObject 1)]
  /\ eval Sample.datatypes LOAD_MEMBER member_input =
       (inr None, with_stack [W_IntObject 1; W_Null] member_input).
Proof.
  split; [reflexivity|]. split; [reflexivity|].
  exact (LOAD_MEMBER_eval_spec Sample.datatypes member_input 0 [("k", W_IntObject 1)]
           (W_StringObject "k") [W_Null] eq_refl eq_refl).
Defined.

Lemma STORE_MEMBER_then_LOAD_MEMBER_witness :
  valuestack (frame store_member_input) = [W_Array 0; W_StringObject "k"; W_IntObject 1]
  /\ heap store_member_input !! 0 = Some []
  /\ eval Sample.datatypes LOAD_MEMBER
       (with_stack [W_Array 0; W_StringObject "k"]
          (state_after (eval Sample.datatypes STORE_MEMBER) store_member_input)) =
     (inr None,
      with_stack [W_IntObject 1]
        (state_after (eval Sample.datatypes STORE_MEMBER) store_member_input)).
Proof.
  split; [reflexivity|]. split; [reflexivity|].
  exact (STORE_MEMBER_then_LOAD_MEMBER Sample.datatypes store_member_input 0 []
           (W_StringObject "k") (W_IntObject 1) (W_StringObject "k") [] []
           eq_refl eq_refl eq_refl).
Defined.

Lemma ASSIGN_then_LOAD_VAR_witness :
  valuestack (frame one_value_input) = [W_IntObject 7]
  /\ then_eval Sample.datatypes (ASSIGN 0 "$x") (LOAD_VAR 0 "$x") one_value_input =
       (inr None, Sample.world [W_IntObject 7] [("$x", W_IntObject 7)] []).
Proof.
  split; [reflexivity|].
  exact (proj1 (ASSIGN_then_LOAD_VAR Sample.datatypes one_value_input 0 "$x"
                  (W_IntObject 7) [] eq_refl)).
Defined.

Lemma arithmetic_eval_witness :
  arithmetic Sample.datatypes SUB = Some (Sample.arith Z.sub)
  /\ valuestack (frame operands_input) = [W_IntObject 4; W_IntObject 10]
  /\ eval Sample.datatypes SUB operands_input =
       (inr None, Sample.world [W_IntObject 6] [] []).
Proof.
  split; [reflexivity|]. split; [reflexivity|].
  exact (arithmetic_eval Sample.datatypes SUB (Sample.arith Z.sub) operands_input
           (W_IntObject 10) (W_IntObject 4) [] eq_refl eq_refl).
Defined.

Lemma comparison_eval_witness :
  comparison Sample.datatypes GT = Some (Sample.compare Z.gtb)
  /\ valuestack (frame operands_input) = [W_IntObject 4; W_IntObject 10]
  /\ eval Sample.datatypes GT operands_input =
       (inr None, Sample.world [W_Boolean true] [] []).
Proof.
  split; [reflexivity|]. split; [reflexivity|].
  exact (comparison_eval Sample.datatypes GT (Sample.compare Z.gtb) operands_input
           (W_IntObject 10) (W_IntObject 4) [] eq_refl eq_refl).
Defined.

Lemma unary_opcode_eval_witness :
  unary_function Sample.datatypes INCR = Some (Sample.unary Z.succ)
  /\ valuestack (frame one_value_input) = [W_IntObject 7]
  /\ eval Sample.datatypes INCR one_value_input =
       (inr None, Sample.world [W_IntObject 8] [] []).
Proof.
  split; [reflexivity|]. split; [reflexivity|].
  exact (unary_opcode_eval Sample.datatypes INCR (Sample.unary Z.succ) one_value_input
           (W_IntObject 7) [] eq_refl eq_refl).
Defined.

Lemma CALL_eval_witness :
  valuestack (frame call_input) =
    [W_Function "f"; W_List [W_IntObject 8; W_IntObject 9]; W_Null]
  /\ eval Sample.datatypes CALL call_input =
       (inr None, Sample.world [W_IntObject 8; W_Null] [] []).
Proof.
  split; [reflexivity|].
  exact (CALL_eval_spec Sample.datatypes call_input (W_Function "f")
           (W_List [W_IntObject 8; W_IntObject 9]) [W_Null] eq_refl).
Defined.

Lemma LOAD_LIST_then_CALL_witness :
  length [W_IntObject 8; W_IntObject 9] = 2
  /\ valuestack (frame arguments_input) = rev [W_IntObject 8; W_IntObject 9] ++ [W_Null]
  /\ eval_all Sample.datatypes [LOAD_LIST 2; LOAD_FUNCTION [RETURN]; CALL] arguments_input =
       (inr tt, Sample.world [W_IntObject 8; W_Null] [] []).
Proof.
  split; [reflexivity|]. split; [reflexivity|].
  exact (LOAD_LIST_then_CALL Sample.datatypes arguments_input 2
           [W_IntObject 8; W_IntObject 9] [W_Null] [RETURN] eq_refl eq_refl).
Defined.

Lemma underflow_faults_witness :
  contract ADD = Some (2, 1)
  /\ valuestack_pos one_value_input < 2
  /\ exists w', run Sample.datatypes ADD 0 one_value_input = (inl StackUnderflow, w').
Proof.
  split; [reflexivity|]. split; [vm_compute; lia|].
  exact (underflow_faults Sample.datatypes ADD 0 one_value_input 2 1 eq_refl (le_n 2)).
Defined.

Lemma heap_kept_witness :
  may_write_heap PRINT = false
  /\ heap (state_after (eval Sample.datatypes PRINT) member_input) = heap member_input.
Proof.
  split; [reflexivity|].
  exact (proj1 (heap_kept Sample.datatypes PRINT member_input eq_refl)).
Defined.

Lemma output_kept_witness :
  may_write_output STORE_MEMBER = false
  /\ output (state_after (eval Sample.datatypes STORE_MEMBER) store_member_input) =
       output store_member_input.
Proof.
  split; [reflexivity|].
  exact (proj1 (output_kept Sample.datatypes STORE_MEMBER store_member_input eq_refl)).
Defined.


Lemma opcodes_stack_local_witness :
  reads_whole_stack SUB = false
  /\ eval Sample.datatypes SUB (extend [W_Null] operands_input) =
       (inr None, extend [W_Null] (Sample.world [W_IntObject 6] [] [])).
Proof.
  split; [reflexivity|].
  apply (proj1 (opcodes_stack_local Sample.datatypes SUB eq_refl)).
  reflexivity.
Defined.

Lemma LOAD_STRINGVAL_empty_key_witness :
  Exists (fun variable : StringVariable => EmptyString ∈ variable.2) empty_key_variables
  /\ exists e,
       eval Sample.datatypes (LOAD_STRINGVAL "$m[]" empty_key_variables) index_input =
         (inl e, index_input).
Proof.
  assert (Exists (fun variable : StringVariable => EmptyString ∈ variable.2)
            empty_key_variables) as Hex.
  { apply Exists_cons_hd. apply list_elem_of_here. }
  split; [exact Hex|].
  exact (LOAD_STRINGVAL_empty_key Sample.datatypes index_input "$m[]"
           empty_key_variables Hex).
Defined.

(** RETURN is not among the opcodes that leave alone what is underneath: on
    the empty stack it yields Null, with a value underneath it pops that
    value. *)
Example RETURN_reads_the_depth :
  RETURN_eval (Sample.world [] [] []) = (inr W_Null, Sample.world [] [] [])
  /\ RETURN_eval (extend [W_IntObject 7] (Sample.world [] [] [])) =
       (inr (W_IntObject 7), Sample.world [] [] []).
Proof. split; reflexivity. Qed.


(** JUMP and JUMP_IF_FALSE print apart although the name of the one begins
    the name of the other, and so do two jumps to different targets. *)
Example jumps_print_apart :
  Opcode_str (Sample.str []) (JUMP 5) <> Opcode_str (Sample.str []) (JUMP_IF_FALSE 5)
  /\ Opcode_str (Sample.str []) (JUMP 5) <> Opcode_str (Sample.str []) (JUMP 15).
Proof. split; discriminate. Qed.

(** The printed forms of some opcodes. *)
Example Opcode_str_examples :
  Opcode_str (Sample.str []) (LOAD_VAR 2 "$x") = "LOAD_VAR 2, $x"
  /\ Opcode_str (Sample.str []) (JUMP_IF_FALSE 14) = "JUMP_IF_FALSE 14"
  /\ Opcode_str (Sample.str []) (LOAD_INTVAL 5) = "LOAD_INTVAL 5"
  /\ Opcode_str (Sample.str []) STORE_MEMBER = "STORE_MEMBER".
Proof. split_and!; reflexivity. Qed.
